(** * go-clamd: the client of the clamd protocol (clamd.go)

    A shallow embedding of [clamd.go].  The file contains the [Clamd] client
    and its public operations; the connection layer ([CLAMDConn] with
    [sendCommand], [sendChunk], [sendEOF], [readResponse], the two dialers and
    [CHUNK_SIZE]) lives in another file of the package, and [url.Parse] in
    the Go library.  Both are taken as an environment [Env] whose answers
    may depend on everything that happened before, so every statement below
    holds for every behaviour of the daemon and of the transport.

    Effects are kept as the code has them: the calls into the environment
    are recorded in a trace of events, a receive on a channel may block, a
    slice expression or a field access through a nil pointer may panic.  The
    timing diagnostics ([time.Now], [fmt.Printf]) carry no behaviour and are
    left out.  The goroutines of [simpleCommand] and [ScanStream] are
    recorded when they are launched and run in the interleaving model of
    module [Tasks]. *)

From Stdlib Require Import String Ascii List ZArith Lia Bool Arith PeanoNat.
From Stdlib Require Import DecimalString.
From Stdlib Require Import Strings.Byte.
Import ListNotations.
Local Open Scope list_scope.
Local Open Scope string_scope.

(** ** Go values *)

(** An [error] carries its message; [nil] is [None] of [option error]. *)
Definition error : Type := string.

Module errors.
Definition New (text : string) : error := text.
End errors.

(** What a call can do besides returning: panic, block for ever on a
    channel, or (only in the model) use up the fuel given to a [for] loop. *)
Inductive panic : Type :=
| NilDereference
| SliceBounds (index bound : nat).

Inductive outcome (A : Type) : Type :=
| Returns (a : A)
| Panics (p : panic)
| Blocks
| OutOfFuel.
Arguments Returns {A} a.
Arguments Panics {A} p.
Arguments Blocks {A}.
Arguments OutOfFuel {A}.

(** ** Package [strings] on byte strings *)
Module strings.

Definition HasPrefix (s prefix : string) : bool := String.prefix prefix s.

Fixpoint contains (c : ascii) (cutset : string) : bool :=
  match cutset with
  | EmptyString => false
  | String d cutset' => if Ascii.eqb c d then true else contains c cutset'
  end.

Fixpoint TrimLeft (s cutset : string) : string :=
  match s with
  | EmptyString => EmptyString
  | String c s' => if contains c cutset then TrimLeft s' cutset else s
  end.

Fixpoint TrimRight (s cutset : string) : string :=
  match s with
  | EmptyString => EmptyString
  | String c s' =>
      match TrimRight s' cutset with
      | EmptyString => if contains c cutset then EmptyString
                       else String c EmptyString
      | t => String c t
      end
  end.

Definition Trim (s cutset : string) : string :=
  TrimRight (TrimLeft s cutset) cutset.

End strings.

(** [s[lo:]]: the tail of [s] from byte [lo]; out of range it panics. *)
Definition slice_from (s : string) (lo : nat) : outcome string :=
  if (lo <=? String.length s)%nat
  then Returns (String.substring lo (String.length s - lo) s)
  else Panics (SliceBounds lo (String.length s)).

(** ** Package [url]: the parts of [url.URL] the client reads *)
Module url.
Record URL : Type := mkURL {
  Scheme : string;
  Host : string;
  Path : string
}.
End url.

(** ** The types of package [clamd] *)
Module clamd.

Definition RES_OK : string := "OK".
Definition RES_FOUND : string := "FOUND".
Definition RES_ERROR : string := "ERROR".
Definition RES_PARSE_ERROR : string := "PARSE ERROR".

Record Clamd : Type := mkClamd {
  address : string
}.

Record Stats : Type := mkStats {
  Pools : string;
  State : string;
  Threads : string;
  Memstats : string;
  Queue : string
}.

Record ScanResult : Type := mkScanResult {
  Raw : string;
  Description : string;
  Path : string;
  Hash : string;
  Size : Z;
  Status : string
}.

(** A connection as the dialers return it. *)
Inductive CLAMDConn : Type :=
| TcpConn (addr : string)
| UnixConn (addr : string).

End clamd.
Import clamd.

(** [&Stats{}] *)
Definition empty_Stats : clamd.Stats := mkStats "" "" "" "" "".

(** ** Package [fmt]: the verb [%v] at the two types the client prints *)
Module fmt.

Definition v_int (n : Z) : string := NilZero.string_of_int (Z.to_int n).

(** A pointer to a struct prints as [&{f1 f2 ...}], a nil pointer as
    [<nil>]. *)
Definition v_ScanResult (s : option ScanResult) : string :=
  match s with
  | None => "<nil>"
  | Some r =>
      "&{" ++ Raw r ++ " " ++ Description r ++ " " ++ Path r ++ " "
           ++ Hash r ++ " " ++ v_int (Size r) ++ " " ++ Status r ++ "}"
  end.

End fmt.

(** ** Channels of results

    [chan *ScanResult] as the client sees it: [None] is the nil channel, [Some
    rs] a channel on which the decoder delivers the records [rs] in order and
    which it then closes. *)
Definition chan : Type := option (list ScanResult).

(** ** Events and the environment *)

Inductive goroutine : Type :=
| Closer          (* wg.Wait(); conn.Close() *)
| AbortWatcher.   (* for { _, ok := <-abort; ... }; conn.Close() *)

Inductive event : Type :=
| EvParse (rawURL : string)
| EvDialTcp (addr : string)
| EvDialUnix (addr : string)
| EvSendCommand (command : string)
| EvRead (k : nat)
| EvSendChunk (data : list Byte.byte)
| EvSendEOF
| EvReadResponse
| EvGo (g : goroutine).

(** An [io.Reader]: the result [(buf[0:nr], err)] of its [k]-th [Read]. *)
Definition io_Reader : Type := nat -> list Byte.byte * option error.

Record Env : Type := mkEnv {
  url_Parse : string -> url.URL + error;
  newCLAMDTcpConn : list event -> string -> option error;
  newCLAMDUnixConn : list event -> string -> option error;
  sendCommand : list event -> string -> option error;
  sendChunk : list event -> list Byte.byte -> option error;
  sendEOF : list event -> option error;
  readResponse : list event -> chan * option error;
  CHUNK_SIZE : nat
}.

(** ** The monad of the client: a trace of events and an outcome *)

Definition M (A : Type) : Type := list event -> outcome A * list event.

Definition ret {A} (a : A) : M A := fun tr => (Returns a, tr).

Definition bind {A B} (m : M A) (k : A -> M B) : M B :=
  fun tr =>
    match m tr with
    | (Returns a, tr') => k a tr'
    | (Panics p, tr') => (Panics p, tr')
    | (Blocks, tr') => (Blocks, tr')
    | (OutOfFuel, tr') => (OutOfFuel, tr')
    end.

Notation "x <- m ;; k" := (bind m (fun x => k))
  (at level 61, m at next level, right associativity).
Notation "' pat <- m ;; k" := (bind m (fun x => match x with pat => k end))
  (at level 61, pat pattern, m at next level, right associativity).

Definition emit (e : event) : M unit := fun tr => (Returns tt, (tr ++ [e])%list).
Definition history : M (list event) := fun tr => (Returns tr, tr).
Definition lift {A} (o : outcome A) : M A := fun tr => (o, tr).

(** [<-ch]: a nil channel blocks, a closed and drained one yields the zero
    value (a nil pointer). *)
Definition recv (ch : chan) : M (option ScanResult) :=
  match ch with
  | None => lift Blocks
  | Some [] => ret None
  | Some (s :: _) => ret (Some s)
  end.

(** [s.Raw] through a pointer. *)
Definition deref (s : option ScanResult) : M ScanResult :=
  match s with
  | None => lift (Panics NilDereference)
  | Some r => ret r
  end.

(** ** [Stats]: the classification of one record (the body of the [range]
    loop, clamd.go lines 170-183) *)

Definition set_Pools (st : clamd.Stats) (v : string) : clamd.Stats :=
  mkStats v (State st) (Threads st) (Memstats st) (Queue st).
Definition set_State (st : clamd.Stats) (v : string) : clamd.Stats :=
  mkStats (Pools st) v (Threads st) (Memstats st) (Queue st).
Definition set_Threads (st : clamd.Stats) (v : string) : clamd.Stats :=
  mkStats (Pools st) (State st) v (Memstats st) (Queue st).
Definition set_Memstats (st : clamd.Stats) (v : string) : clamd.Stats :=
  mkStats (Pools st) (State st) (Threads st) v (Queue st).
Definition set_Queue (st : clamd.Stats) (v : string) : clamd.Stats :=
  mkStats (Pools st) (State st) (Threads st) (Memstats st) v.

(** [inl stats']: the loop goes on with [stats']; [inr err]: [return nil,
    err]. *)
Definition Stats_record (stats : clamd.Stats) (s : ScanResult)
  : outcome (clamd.Stats + error) :=
  if strings.HasPrefix (Raw s) "POOLS" then
    match slice_from (Raw s) 6 with
    | Returns t => Returns (inl (set_Pools stats (strings.Trim t " ")))
    | Panics p => Panics p
    | Blocks => Blocks
    | OutOfFuel => OutOfFuel
    end
  else if strings.HasPrefix (Raw s) "STATE" then
    Returns (inl (set_State stats (Raw s)))
  else if strings.HasPrefix (Raw s) "THREADS" then
    Returns (inl (set_Threads stats (Raw s)))
  else if strings.HasPrefix (Raw s) "QUEUE" then
    Returns (inl (set_Queue stats (Raw s)))
  else if strings.HasPrefix (Raw s) "MEMSTATS" then
    Returns (inl (set_Memstats stats (Raw s)))
  else if strings.HasPrefix (Raw s) "END" then
    Returns (inl stats)
  else
    Returns (inr (errors.New
      ("Unknown response, got " ++ fmt.v_ScanResult (Some s) ++ "."))).

(** [for s := range ch { ... }; return stats, nil] over the records the
    channel delivers before it is closed. *)
Fixpoint Stats_range (stats : clamd.Stats) (rs : list ScanResult)
  : outcome (option clamd.Stats * option error) :=
  match rs with
  | [] => Returns (Some stats, None)
  | s :: rs' =>
      match Stats_record stats s with
      | Returns (inl stats') => Stats_range stats' rs'
      | Returns (inr err) => Returns (None, Some err)
      | Panics p => Panics p
      | Blocks => Blocks
      | OutOfFuel => OutOfFuel
      end
  end.

(** ** The client *)

Definition NewClamd (address : string) : Clamd := mkClamd address.

Section Client.

Variable env : Env.

Definition dialTcp (addr : string) : M (option CLAMDConn * option error) :=
  h <- history ;;
  _ <- emit (EvDialTcp addr) ;;
  match newCLAMDTcpConn env h addr with
  | None => ret (Some (TcpConn addr), None)
  | Some err => ret (None, Some err)
  end.

Definition dialUnix (addr : string) : M (option CLAMDConn * option error) :=
  h <- history ;;
  _ <- emit (EvDialUnix addr) ;;
  match newCLAMDUnixConn env h addr with
  | None => ret (Some (UnixConn addr), None)
  | Some err => ret (None, Some err)
  end.

Definition conn_sendCommand (conn : CLAMDConn) (command : string)
  : M (option error) :=
  h <- history ;;
  _ <- emit (EvSendCommand command) ;;
  ret (sendCommand env h command).

Definition conn_sendChunk (conn : CLAMDConn) (data : list Byte.byte)
  : M (option error) :=
  h <- history ;;
  _ <- emit (EvSendChunk data) ;;
  ret (sendChunk env h data).

Definition conn_sendEOF (conn : CLAMDConn) : M (option error) :=
  h <- history ;;
  _ <- emit EvSendEOF ;;
  ret (sendEOF env h).

Definition conn_readResponse (conn : CLAMDConn) : M (chan * option error) :=
  h <- history ;;
  _ <- emit EvReadResponse ;;
  ret (readResponse env h).

(** clamd.go lines 69-86 *)
Definition newConnection (c : Clamd) : M (option CLAMDConn * option error) :=
  _ <- emit (EvParse (address c)) ;;
  match url_Parse env (address c) with
  | inr err => ret (None, Some err)
  | inl u =>
      if String.eqb (url.Scheme u) "tcp" then dialTcp (url.Host u)
      else if String.eqb (url.Scheme u) "unix" then dialUnix (url.Path u)
      else dialUnix (address c)
  end.

(** clamd.go lines 88-128 *)
Definition simpleCommand (c : Clamd) (command : string)
  : M (chan * option error) :=
  '(conn, err) <- newConnection c ;;
  match err, conn with
  | Some e, _ => ret (None, Some e)
  | None, None => lift (Panics NilDereference)
  | None, Some conn =>
      err <- conn_sendCommand conn command ;;
      match err with
      | Some e => ret (None, Some e)
      | None =>
          '(ch, err) <- conn_readResponse conn ;;
          _ <- emit (EvGo Closer) ;;
          ret (ch, err)
      end
  end.

(** clamd.go lines 133-148 *)
Definition Ping (c : Clamd) : M (option error) :=
  '(ch, err) <- simpleCommand c "PING" ;;
  match err with
  | Some e => ret (Some e)
  | None =>
      s <- recv ch ;;
      r <- deref s ;;
      if String.eqb (Raw r) "PONG" then ret None
      else ret (Some (errors.New
             ("Invalid response, got " ++ fmt.v_ScanResult s ++ ".")))
  end.

(** clamd.go lines 153-156 *)
Definition Version (c : Clamd) : M (option ScanResult * option error) :=
  '(dataArrays, err) <- simpleCommand c "VERSION" ;;
  s <- recv dataArrays ;;
  ret (s, err).

(** clamd.go lines 161-187 *)
Definition Stats (c : Clamd) : M (option clamd.Stats * option error) :=
  '(ch, err) <- simpleCommand c "STATS" ;;
  match err with
  | Some e => ret (None, Some e)
  | None =>
      match ch with
      | None => lift Blocks
      | Some rs => lift (Stats_range empty_Stats rs)
      end
  end.

(** clamd.go lines 192-207 *)
Definition Reload (c : Clamd) : M (option error) :=
  '(ch, err) <- simpleCommand c "RELOAD" ;;
  match err with
  | Some e => ret (Some e)
  | None =>
      s <- recv ch ;;
      r <- deref s ;;
      if String.eqb (Raw r) "RELOADING" then ret None
      else ret (Some (errors.New
             ("Invalid response, got " ++ fmt.v_ScanResult s ++ ".")))
  end.

(** clamd.go lines 209-216 *)
Definition Shutdown (c : Clamd) : M (option error) :=
  '(_, err) <- simpleCommand c "SHUTDOWN" ;;
  ret err.

(** clamd.go lines 222-266 *)
Definition ScanFile (c : Clamd) (path : string)
  : M (option ScanResult * option error) :=
  let command := "SCAN " ++ path in
  '(ch, err) <- simpleCommand c command ;;
  s <- recv ch ;;
  ret (s, err).

Definition RawScanFile (c : Clamd) (path : string)
  : M (option ScanResult * option error) :=
  let command := "RAWSCAN " ++ path in
  '(ch, err) <- simpleCommand c command ;;
  s <- recv ch ;;
  ret (s, err).

Definition MultiScanFile (c : Clamd) (path : string)
  : M (option ScanResult * option error) :=
  let command := "MULTISCAN " ++ path in
  '(ch, err) <- simpleCommand c command ;;
  s <- recv ch ;;
  ret (s, err).

Definition ContScanFile (c : Clamd) (path : string)
  : M (option ScanResult * option error) :=
  let command := "CONTSCAN " ++ path in
  '(ch, err) <- simpleCommand c command ;;
  s <- recv ch ;;
  ret (s, err).

Definition AllMatchScanFile (c : Clamd) (path : string)
  : M (option ScanResult * option error) :=
  let command := "ALLMATCHSCAN " ++ path in
  '(ch, err) <- simpleCommand c command ;;
  s <- recv ch ;;
  ret (s, err).

(** One turn of the upload loop of [ScanStream], clamd.go lines 313-322,
    up to the test [if err != nil] whose subject it returns; [k] counts the
    calls of [r.Read].  [sendChunk] overwrites the error of [Read];
    [buf[0:nr]] panics when the reader claims more bytes than the buffer
    holds. *)
Definition upload_turn (conn : CLAMDConn) (r : io_Reader) (k : nat)
  : M (option error) :=
  _ <- emit (EvRead k) ;;
  let '(data, rerr) := r k in
  if (0 <? List.length data)%nat then
    if (List.length data <=? CHUNK_SIZE env)%nat
    then conn_sendChunk conn data
    else lift (Panics (SliceBounds (List.length data) (CHUNK_SIZE env)))
  else ret rerr.

(** The loop, clamd.go lines 312-327. *)
Fixpoint upload (fuel : nat) (conn : CLAMDConn) (r : io_Reader) (k : nat)
  : M unit :=
  match fuel with
  | O => lift OutOfFuel
  | S fuel' =>
      err <- upload_turn conn r k ;;
      match err with
      | Some _ => ret tt
      | None => upload fuel' conn r (S k)
      end
  end.

(** clamd.go lines 278-357.  The abort channel is only handed to the
    watcher goroutine; what the watcher does to the connection shows in the
    answers of the environment. *)
Definition ScanStream (fuel : nat) (c : Clamd) (r : io_Reader)
  : M (chan * option error) :=
  '(conn, err) <- newConnection c ;;
  match err, conn with
  | Some e, _ => ret (None, Some e)
  | None, None => lift (Panics NilDereference)
  | None, Some conn =>
      _ <- emit (EvGo AbortWatcher) ;;
      err <- conn_sendCommand conn "INSTREAM" ;;
      match err with
      | Some e => ret (None, Some e)
      | None =>
          _ <- upload fuel conn r 0 ;;
          err <- conn_sendEOF conn ;;
          match err with
          | Some e => ret (None, Some e)
          | None =>
              '(ch, _) <- conn_readResponse conn ;;
              _ <- emit (EvGo Closer) ;;
              ret (ch, None)
          end
      end
  end.

End Client.

(** * The tasks of a call

    [simpleCommand] and [ScanStream] leave goroutines behind: the closer
    ([wg.Wait(); conn.Close()], clamd.go lines 105-117 and 342-353) and, for
    [ScanStream], the watcher of the abort channel (lines 289-301).  They run
    with the decoder that [readResponse] starts and with the caller.  A state
    of the system holds the place of each task and the objects they share;
    a schedule, a list of labels, picks the task that moves next, so that the
    runs of the system are the interleavings of the tasks. *)
Module Tasks.

Inductive call : Type :=
| Simple (command : string)   (* c.simpleCommand(command) *)
| Stream (r : io_Reader).     (* c.ScanStream(r, abort) *)

(** The place of the calling goroutine in [simpleCommand] or
    [ScanStream]. *)
Inductive main_pc : Type :=
| MConnect
| MLaunchWatcher (conn : CLAMDConn)
| MSendCommand (conn : CLAMDConn)
| MUpload (conn : CLAMDConn) (k : nat)
| MSendEOF (conn : CLAMDConn)
| MReadResponse (conn : CLAMDConn)
| MLaunchCloser (ch : chan) (err : option error)
| MReturned (ch : chan) (err : option error)
| MPanicked (p : panic).

Inductive watcher_pc : Type :=
| WAbsent       (* not launched *)
| WReceiving    (* in the loop, at [<-abort] *)
| WClosing      (* after [break], before [conn.Close()] *)
| WDone.

Inductive decoder_pc : Type :=
| DAbsent
| DDecoding (pending : list ScanResult)
| DDone.

Inductive closer_pc : Type :=
| CAbsent
| CWaiting      (* at [wg.Wait()] *)
| CDone.

Inductive label : Type :=
| LMain             (* the calling goroutine takes its next step *)
| LSend (b : bool)  (* the owner of [abort] sends [b] on it *)
| LCancel           (* the owner of [abort] closes it *)
| LWatch            (* watcher: a receive from [abort] completes *)
| LWatcherClose     (* watcher: [conn.Close()] *)
| LDeliver          (* decoder: the next record passes the channel *)
| LComplete         (* decoder: [close(ch)], the signal is satisfied *)
| LCloserClose.     (* closer: [wg.Wait()] returns, [conn.Close()] *)

Record state : Type := mkState {
  main : main_pc;
  trace : list event;
  watcher : watcher_pc;
  decoder : decoder_pc;
  closer : closer_pc;
  closes : list goroutine;     (* the calls of [conn.Close()], in order *)
  abort_queue : list bool;     (* values sent on [abort], not yet received *)
  abort_closed : bool;
  wg : nat;                    (* the counter of the WaitGroup *)
  delivered : list ScanResult  (* records that passed the channel *)
}.

Definition init : state :=
  mkState MConnect [] WAbsent DAbsent CAbsent [] [] false 0 [].

Definition conn_closed (st : state) : bool :=
  match closes st with
  | [] => false
  | _ :: _ => true
  end.

Definition records_of (ch : chan) : list ScanResult :=
  match ch with
  | Some rs => rs
  | None => []
  end.

(** What the connection layer, which is not in clamd.go, answers to a
    write once the connection is closed is left open: [refusal] gives, for
    the trace so far, the error of such a write, and [None] if the write
    still goes through.  A Go [net.Conn] refuses every write once it is
    closed ([refused]); the statements about cancellation take that as their
    hypothesis, the others hold for every [refusal]. *)
Definition closed_connection (refusal : list event -> option error)
  (env : Env) : Env :=
  mkEnv (url_Parse env) (newCLAMDTcpConn env) (newCLAMDUnixConn env)
        (fun h _ => refusal h) (fun h _ => refusal h) refusal
        (readResponse env) (CHUNK_SIZE env).

Definition through (refusal : list event -> option error) (closed : bool)
  (env : Env) : Env :=
  if closed then closed_connection refusal env else env.

Definition refused (refusal : list event -> option error) : Prop :=
  forall h, refusal h <> None.

(** The reader keeps the contract of [io.Reader]: never more bytes than
    the buffer holds. *)
Definition fits (env : Env) (r : io_Reader) : Prop :=
  forall k, List.length (fst (r k)) <= CHUNK_SIZE env.

Section System.

Variable env : Env.
Variable refusal : list event -> option error.
Variable c : Clamd.
Variable the_call : call.

Definition set_main (st : state) (pc : main_pc) (tr : list event) : state :=
  mkState pc tr (watcher st) (decoder st) (closer st) (closes st)
          (abort_queue st) (abort_closed st) (wg st) (delivered st).

(** One step of the calling goroutine: the next statement of
    [simpleCommand] or [ScanStream] that touches the connection or
    launches a goroutine, run on the trace so far. *)
Definition after {A} (st : state) (m : M A) (next : A -> main_pc)
  : option state :=
  match m (trace st) with
  | (Returns a, tr') => Some (set_main st (next a) tr')
  | (Panics p, tr') => Some (set_main st (MPanicked p) tr')
  | (Blocks, _) => None
  | (OutOfFuel, _) => None
  end.

Definition main_step (st : state) : option state :=
  let env' := through refusal (conn_closed st) env in
  match main st with
  | MConnect =>
      after st (newConnection env c)
        (fun '(conn, err) =>
           match err, conn with
           | Some e, _ => MReturned None (Some e)
           | None, None => MPanicked NilDereference
           | None, Some conn =>
               match the_call with
               | Simple _ => MSendCommand conn
               | Stream _ => MLaunchWatcher conn
               end
           end)
  | MLaunchWatcher conn =>
      Some (mkState (MSendCommand conn)
                    (trace st ++ [EvGo AbortWatcher])%list
                    WReceiving (decoder st) (closer st) (closes st)
                    (abort_queue st) (abort_closed st) (wg st)
                    (delivered st))
  | MSendCommand conn =>
      after st
        (conn_sendCommand env' conn
           match the_call with
           | Simple command => command
           | Stream _ => "INSTREAM"
           end)
        (fun err =>
           match err with
           | Some e => MReturned None (Some e)
           | None =>
               match the_call with
               | Simple _ => MReadResponse conn
               | Stream _ => MUpload conn 0
               end
           end)
  | MUpload conn k =>
      match the_call with
      | Simple _ => None
      | Stream r =>
          after st (upload_turn env' conn r k)
            (fun err =>
               match err with
               | Some _ => MSendEOF conn
               | None => MUpload conn (S k)
               end)
      end
  | MSendEOF conn =>
      after st (conn_sendEOF env' conn)
        (fun err =>
           match err with
           | Some e => MReturned None (Some e)
           | None => MReadResponse conn
           end)
  | MReadResponse conn =>
      match conn_readResponse env' conn (trace st) with
      | (Returns (ch, err), tr') =>
          Some (mkState
                  (MLaunchCloser ch match the_call with
                                    | Simple _ => err
                                    | Stream _ => None
                                    end)
                  tr' (watcher st) (DDecoding (records_of ch)) (closer st)
                  (closes st) (abort_queue st) (abort_closed st) 1
                  (delivered st))
      | _ => None
      end
  | MLaunchCloser ch err =>
      Some (mkState (MReturned ch err) (trace st ++ [EvGo Closer])%list
                    (watcher st) (decoder st) CWaiting (closes st)
                    (abort_queue st) (abort_closed st) (wg st)
                    (delivered st))
  | MReturned _ _ => None
  | MPanicked _ => None
  end.

(** The watcher, clamd.go lines 289-301: a value received from [abort]
    sends it round the loop again, whatever the value; only a closed
    channel ([allowRunning] false) ends the loop, and then the connection
    is closed. *)
Definition watcher_receive (st : state) : option state :=
  match watcher st, abort_queue st with
  | WReceiving, _ :: queue =>
      Some (mkState (main st) (trace st) WReceiving (decoder st)
                    (closer st) (closes st) queue (abort_closed st)
                    (wg st) (delivered st))
  | WReceiving, [] =>
      if abort_closed st then
        Some (mkState (main st) (trace st) WClosing (decoder st)
                      (closer st) (closes st) [] (abort_closed st)
                      (wg st) (delivered st))
      else None
  | _, _ => None
  end.

Definition watcher_close (st : state) : option state :=
  match watcher st with
  | WClosing =>
      Some (mkState (main st) (trace st) WDone (decoder st) (closer st)
                    (closes st ++ [AbortWatcher])%list (abort_queue st)
                    (abort_closed st) (wg st) (delivered st))
  | _ => None
  end.

(** The closer, clamd.go lines 105-107 and 342-347: [wg.Wait()] returns
    when the counter is zero, then the connection is closed. *)
Definition closer_close (st : state) : option state :=
  match closer st, wg st with
  | CWaiting, O =>
      Some (mkState (main st) (trace st) (watcher st) (decoder st) CDone
                    (closes st ++ [Closer])%list (abort_queue st)
                    (abort_closed st) (wg st) (delivered st))
  | _, _ => None
  end.

(** Modelled from the spec: the decoder that [readResponse] starts, which
    is in the connection file and not in clamd.go.  It hands the records
    to the channel in the order read, and its completion signal is
    satisfied once it has emitted its final record and will emit no
    more; it ends when the response is exhausted or when a read fails
    because the connection was closed. *)
Definition decoder_deliver (st : state) : option state :=
  match decoder st with
  | DDecoding (s :: pending) =>
      Some (mkState (main st) (trace st) (watcher st) (DDecoding pending)
                    (closer st) (closes st) (abort_queue st)
                    (abort_closed st) (wg st) (delivered st ++ [s])%list)
  | _ => None
  end.

Definition decoder_complete (st : state) : option state :=
  match decoder st with
  | DDecoding pending =>
      if match pending with [] => true | _ :: _ => conn_closed st end
      then Some (mkState (main st) (trace st) (watcher st) DDone
                         (closer st) (closes st) (abort_queue st)
                         (abort_closed st) (Nat.pred (wg st))
                         (delivered st))
      else None
  | _ => None
  end.

(** The owner of the abort channel; a send on a closed channel and a
    second close are its own panics and are left out. *)
Definition abort_send (b : bool) (st : state) : option state :=
  if abort_closed st then None
  else Some (mkState (main st) (trace st) (watcher st) (decoder st)
                     (closer st) (closes st) (abort_queue st ++ [b])%list
                     false (wg st) (delivered st)).

Definition abort_close (st : state) : option state :=
  if abort_closed st then None
  else Some (mkState (main st) (trace st) (watcher st) (decoder st)
                     (closer st) (closes st) (abort_queue st)
                     true (wg st) (delivered st)).

(** A panic of the calling goroutine ends the process. *)
Definition step (l : label) (st : state) : option state :=
  match main st with
  | MPanicked _ => None
  | _ =>
      match l with
      | LMain => main_step st
      | LSend b => abort_send b st
      | LCancel => abort_close st
      | LWatch => watcher_receive st
      | LWatcherClose => watcher_close st
      | LDeliver => decoder_deliver st
      | LComplete => decoder_complete st
      | LCloserClose => closer_close st
      end
  end.

Fixpoint exec (schedule : list label) (st : state) : option state :=
  match schedule with
  | [] => Some st
  | l :: schedule' =>
      match step l st with
      | Some st' => exec schedule' st'
      | None => None
      end
  end.

(** The records of the response that the caller holds the channel
    of. *)
Definition response_of (st : state) : list ScanResult :=
  match main st with
  | MLaunchCloser ch _ => records_of ch
  | MReturned ch _ => records_of ch
  | _ => []
  end.

Definition before_response (pc : main_pc) : bool :=
  match pc with
  | MLaunchCloser _ _ => false
  | MReturned _ _ => false
  | _ => true
  end.

(** The places a step of the calling goroutine may lead to before the
    response is read. *)
Definition early (st : state) (pc : main_pc) : Prop :=
  (forall ch err, pc <> MLaunchCloser ch err)
  /\ pc <> MConnect
  /\ (forall conn, pc = MLaunchWatcher conn ->
        watcher st = WAbsent /\ exists r, the_call = Stream r)
  /\ (forall conn k, pc = MUpload conn k ->
        exists r, the_call = Stream r).

(** What holds in every state that a schedule reaches. *)
Record invariant (st : state) : Prop := mkInvariant {
  inv_before :
    before_response (main st) = true -> decoder st = DAbsent;
  inv_absent :
    decoder st = DAbsent ->
    closer st = CAbsent /\ delivered st = [] /\ wg st = 0
    /\ forall ch err, main st <> MLaunchCloser ch err;
  inv_decoding :
    forall pending, decoder st = DDecoding pending ->
    wg st = 1 /\ closer st <> CDone
    /\ (delivered st ++ pending)%list = response_of st;
  inv_done :
    decoder st = DDone ->
    wg st = 0
    /\ (delivered st = response_of st \/ In AbortWatcher (closes st));
  inv_closer_done :
    closer st = CDone -> decoder st = DDone;
  inv_closer_close :
    In Closer (closes st) -> closer st = CDone;
  inv_watcher_close :
    In AbortWatcher (closes st) -> watcher st = WDone;
  inv_watcher_cancel :
    watcher st = WClosing \/ watcher st = WDone ->
    abort_closed st = true;
  inv_watcher_launch :
    watcher st <> WAbsent ->
    exists r, the_call = Stream r;
  inv_main_watcher :
    main st = MConnect \/ (exists conn, main st = MLaunchWatcher conn) ->
    watcher st = WAbsent;
  inv_main_stream :
    forall conn, main st = MLaunchWatcher conn ->
    exists r, the_call = Stream r;
  inv_main_closer :
    forall ch err, main st = MLaunchCloser ch err -> closer st = CAbsent;
  inv_closer_launch :
    closer st <> CAbsent -> exists ch err, main st = MReturned ch err;
  inv_main_upload :
    forall conn k, main st = MUpload conn k ->
    exists r, the_call = Stream r
}.

End System.

End Tasks.

(** * Examples: environments, clients, readers and runs

    [url.Parse] is Go's; the examples use the part of it that the address
    grammar of the daemon needs: scheme, authority and path of an address
    without query, fragment, user information or escapes.  The environments
    below are instances on which the statements are exercised; the theorems
    quantify over every [Env]. *)
Module url_example.

Inductive scheme_scan : Type :=
| SchemeEnds (i : nat)
| NoScheme
| MissingScheme.

Definition between (lo hi c : ascii) : bool :=
  ((nat_of_ascii lo <=? nat_of_ascii c)
   && (nat_of_ascii c <=? nat_of_ascii hi))%nat.

Fixpoint scanScheme (i : nat) (s : string) : scheme_scan :=
  match s with
  | EmptyString => NoScheme
  | String c s' =>
      if between "a" "z" c || between "A" "Z" c then scanScheme (S i) s'
      else if between "0" "9" c || strings.contains c "+-." then
        if (i =? 0)%nat then NoScheme else scanScheme (S i) s'
      else if Ascii.eqb c ":" then
        if (i =? 0)%nat then MissingScheme else SchemeEnds i
      else NoScheme
  end.

Definition getScheme (rawURL : string) : (string * string) + error :=
  match scanScheme 0 rawURL with
  | SchemeEnds i =>
      inl (String.substring 0 i rawURL,
           String.substring (S i) (String.length rawURL - S i) rawURL)
  | NoScheme => inl ("", rawURL)
  | MissingScheme => inr "missing protocol scheme"
  end.

Definition lower (c : ascii) : ascii :=
  if between "A" "Z" c then ascii_of_nat (nat_of_ascii c + 32) else c.

Fixpoint ToLower (s : string) : string :=
  match s with
  | EmptyString => EmptyString
  | String c s' => String (lower c) (ToLower s')
  end.

(** [strings.Cut(s, sep)] for a one-byte separator: the text before the
    first [sep], and the rest from [sep] on when it is found. *)
Fixpoint cut_at (sep : ascii) (s : string) : string * option string :=
  match s with
  | EmptyString => (EmptyString, None)
  | String c s' =>
      if Ascii.eqb c sep then (EmptyString, Some s)
      else let '(before, rest) := cut_at sep s' in (String c before, rest)
  end.

Definition quote : string := String (ascii_of_nat 34) EmptyString.

Definition parse_error (rawURL msg : string) : error :=
  "parse " ++ quote ++ rawURL ++ quote ++ ": " ++ msg.

Definition Parse (rawURL : string) : url.URL + error :=
  match getScheme rawURL with
  | inr msg => inr (parse_error rawURL msg)
  | inl (scheme, rest) =>
      let scheme := ToLower scheme in
      if negb (strings.HasPrefix rest "/") && negb (String.eqb scheme "")
      then inl (url.mkURL scheme "" "")
      else if negb (strings.HasPrefix rest "/")
              && strings.contains ":" (fst (cut_at "/" rest))
      then inr (parse_error rawURL
                  "first path segment in URL cannot contain colon")
      else if strings.HasPrefix rest "//"
              && (negb (String.eqb scheme "")
                  || negb (strings.HasPrefix rest "///"))
      then
        let authority := String.substring 2 (String.length rest - 2) rest in
        match cut_at "/" authority with
        | (host, Some path) => inl (url.mkURL scheme host path)
        | (host, None) => inl (url.mkURL scheme host "")
        end
      else inl (url.mkURL scheme "" rest)
  end.

End url_example.

(** The daemon answers every command with the records [reply]; nothing
    fails. *)
Definition env_reply (reply : list ScanResult) : Env :=
  mkEnv url_example.Parse
        (fun _ _ => None) (fun _ _ => None)
        (fun _ _ => None) (fun _ _ => None) (fun _ => None)
        (fun _ => (Some reply, None))
        1024.

(** The refusal of a [net.Conn] that was closed. *)
Definition err_closed : error := "use of closed network connection".

Definition net_refusal : list event -> option error :=
  fun _ => Some err_closed.

(** A record as the decoder leaves it when the text is no scan result. *)
Definition plain (raw : string) : ScanResult :=
  mkScanResult raw "" "" "" 0 "".

Definition tcp_client : Clamd := NewClamd "tcp://127.0.0.1:3310".
Definition unix_client : Clamd := NewClamd "unix:///var/run/clamd.sock".
Definition bare_client : Clamd := NewClamd "/var/run/clamd.sock".
Definition bad_client : Clamd := NewClamd "127.0.0.1:3310".

Definition stats_reply : list ScanResult :=
  map plain ["POOLS: 1"; "STATE: VALID"; "THREADS: live 1 idle 0 max 10";
             "QUEUE: 0"; "MEMSTATS: heap 1M"; "END"].

(** A reader over the given blocks: one block for each [Read], then no
    bytes and [io.EOF]. *)
Definition reader_of (blocks : list (list Byte.byte)) : io_Reader :=
  fun k => match nth_error blocks k with
           | Some data => (data, None)
           | None => ([], Some "EOF")
           end.

(** * Vocabulary of the statements *)

(** The prefixes that the loop of [Stats] knows. *)
Definition recognized (raw : string) : bool :=
  strings.HasPrefix raw "POOLS" || strings.HasPrefix raw "STATE"
  || strings.HasPrefix raw "THREADS" || strings.HasPrefix raw "QUEUE"
  || strings.HasPrefix raw "MEMSTATS" || strings.HasPrefix raw "END".

Definition unknown_response (s : ScanResult) : error :=
  errors.New ("Unknown response, got " ++ fmt.v_ScanResult (Some s) ++ ".").

Definition invalid_response (s : ScanResult) : error :=
  errors.New ("Invalid response, got " ++ fmt.v_ScanResult (Some s) ++ ".").

(** The five scan commands on files. *)
Inductive variant : Type :=
| SCAN | RAWSCAN | MULTISCAN | CONTSCAN | ALLMATCHSCAN.

Definition variant_word (v : variant) : string :=
  match v with
  | SCAN => "SCAN"
  | RAWSCAN => "RAWSCAN"
  | MULTISCAN => "MULTISCAN"
  | CONTSCAN => "CONTSCAN"
  | ALLMATCHSCAN => "ALLMATCHSCAN"
  end.

Definition scan_operation (v : variant)
  : Env -> Clamd -> string -> M (option ScanResult * option error) :=
  match v with
  | SCAN => ScanFile
  | RAWSCAN => RawScanFile
  | MULTISCAN => MultiScanFile
  | CONTSCAN => ContScanFile
  | ALLMATCHSCAN => AllMatchScanFile
  end.

(** The command lines, the parsed addresses and the uploaded chunks of a
    trace, in order. *)
Fixpoint commands (tr : list event) : list string :=
  match tr with
  | [] => []
  | EvSendCommand command :: tr' => command :: commands tr'
  | _ :: tr' => commands tr'
  end.

Fixpoint parses (tr : list event) : list string :=
  match tr with
  | [] => []
  | EvParse rawURL :: tr' => rawURL :: parses tr'
  | _ :: tr' => parses tr'
  end.

(** What is written after the command on the connection: [Some data] for a
    chunk, [None] for the zero-length terminator. *)
Fixpoint frames (tr : list event) : list (option (list Byte.byte)) :=
  match tr with
  | [] => []
  | EvSendChunk data :: tr' => Some data :: frames tr'
  | EvSendEOF :: tr' => None :: frames tr'
  | _ :: tr' => frames tr'
  end.

(** The public operations of a client, and the trace a call leaves. *)
Inductive operation : Type :=
| OpPing
| OpVersion
| OpStats
| OpReload
| OpShutdown
| OpScan (v : variant) (path : string)
| OpScanStream (fuel : nat) (r : io_Reader).

Definition trace_of (env : Env) (c : Clamd) (op : operation)
  (tr : list event) : list event :=
  match op with
  | OpPing => snd (Ping env c tr)
  | OpVersion => snd (Version env c tr)
  | OpStats => snd (Stats env c tr)
  | OpReload => snd (Reload env c tr)
  | OpShutdown => snd (Shutdown env c tr)
  | OpScan v path => snd (scan_operation v env c path tr)
  | OpScanStream fuel r => snd (ScanStream env fuel c r tr)
  end.

(** The traces of several calls in a row. *)
Fixpoint trace_of_calls (env : Env) (c : Clamd) (ops : list operation)
  (tr : list event) : list event :=
  match ops with
  | [] => tr
  | op :: ops' => trace_of_calls env c ops' (trace_of env c op tr)
  end.

(** Two runs of the tasks, and the states they end in: a [Ping] whose
    reply is delivered before the closer closes the connection, and a
    [ScanStream] cancelled before the call, whose watcher closes the
    connection before the first chunk is sent. *)
Definition ping_schedule : list Tasks.label :=
  [Tasks.LMain; Tasks.LMain; Tasks.LMain; Tasks.LMain;
   Tasks.LDeliver; Tasks.LComplete; Tasks.LCloserClose].

Definition ping_state : Tasks.state :=
  Eval vm_compute in
    match Tasks.exec (env_reply [plain "PONG"]) net_refusal tcp_client
            (Tasks.Simple "PING") ping_schedule Tasks.init with
    | Some st => st
    | None => Tasks.init
    end.

Definition cancelled_schedule : list Tasks.label :=
  [Tasks.LCancel; Tasks.LMain; Tasks.LMain; Tasks.LMain;
   Tasks.LWatch; Tasks.LWatcherClose].

Definition cancelled_state : Tasks.state :=
  Eval vm_compute in
    match Tasks.exec (env_reply [plain "stream: OK"]) net_refusal tcp_client
            (Tasks.Stream (reader_of [[x01; x02]; [x03]]))
            cancelled_schedule Tasks.init with
    | Some st => st
    | None => Tasks.init
    end.

(** * Vocabulary of the further statements *)

(** A record that the loop of [Stats] passes: of a known prefix, and long
    enough for the slice when the prefix is POOLS. *)
Definition passes (raw : string) : bool :=
  recognized raw
  && (negb (strings.HasPrefix raw "POOLS") || (6 <=? String.length raw)%nat).

(** The value that the last record of a given prefix leaves in its field:
    [value] of its raw text, or [default] when no record has the prefix. *)
Fixpoint last_of (prefix : string) (value : string -> string)
  (rs : list ScanResult) (default : string) : string :=
  match rs with
  | [] => default
  | s :: rs' =>
      last_of prefix value rs'
        (if strings.HasPrefix (Raw s) prefix then value (Raw s) else default)
  end.

(** [strings.Trim(raw[6:], " ")] for a raw text of six bytes or more. *)
Definition pools_value (raw : string) : string :=
  strings.Trim (String.substring 6 (String.length raw - 6) raw) " ".

Definition verbatim (raw : string) : string := raw.

(** The error that a call reports to its caller, and the command of each
    operation. *)
Definition outcome_map {A B : Type} (f : A -> B) (o : outcome A) : outcome B :=
  match o with
  | Returns a => Returns (f a)
  | Panics p => Panics p
  | Blocks => Blocks
  | OutOfFuel => OutOfFuel
  end.

Definition reported (env : Env) (c : Clamd) (op : operation)
  (tr : list event) : outcome (option error) :=
  match op with
  | OpPing => fst (Ping env c tr)
  | OpVersion => outcome_map snd (fst (Version env c tr))
  | OpStats => outcome_map snd (fst (Stats env c tr))
  | OpReload => fst (Reload env c tr)
  | OpShutdown => fst (Shutdown env c tr)
  | OpScan v path => outcome_map snd (fst (scan_operation v env c path tr))
  | OpScanStream fuel r => outcome_map snd (fst (ScanStream env fuel c r tr))
  end.

Definition command_of (op : operation) : string :=
  match op with
  | OpPing => "PING"
  | OpVersion => "VERSION"
  | OpStats => "STATS"
  | OpReload => "RELOAD"
  | OpShutdown => "SHUTDOWN"
  | OpScan v path => variant_word v ++ " " ++ path
  | OpScanStream _ _ => "INSTREAM"
  end.

(** [Version] and the scans of files receive from the channel before they
    look at the error ([return <-ch, err]). *)
Definition receives_first (op : operation) : bool :=
  match op with
  | OpVersion => true
  | OpScan _ _ => true
  | _ => false
  end.

(** The trace at which the command is sent, from the trace after the
    connection: [ScanStream] launches the watcher in between. *)
Definition at_send (op : operation) (tr1 : list event) : list event :=
  match op with
  | OpScanStream _ _ => (tr1 ++ [EvGo AbortWatcher])%list
  | _ => tr1
  end.

(** Counting on traces. *)
Definition is_dial (ev : event) : bool :=
  match ev with
  | EvDialTcp _ => true
  | EvDialUnix _ => true
  | _ => false
  end.

Definition is_response (ev : event) : bool :=
  match ev with
  | EvReadResponse => true
  | _ => false
  end.

Definition is_launch (g : goroutine) (ev : event) : bool :=
  match ev, g with
  | EvGo Closer, Closer => true
  | EvGo AbortWatcher, AbortWatcher => true
  | _, _ => false
  end.

Definition count (p : event -> bool) (tr : list event) : nat :=
  List.length (filter p tr).

(** The exchange of [command] begun at [tr] went through: the connection
    was made, the command was sent and [readResponse] returned [res]. *)
Definition answered (env : Env) (c : Clamd) (command : string)
  (tr : list event) (res : chan * option error) : Prop :=
  exists conn tr1,
    newConnection env c tr = (Returns (Some conn, None), tr1)
    /\ sendCommand env tr1 command = None
    /\ readResponse env (tr1 ++ [EvSendCommand command])%list = res.

(** The upload loop on a reader: the blocks of the [Read]s [k] to
    [k + j - 1], and the events of the turns [k] to [k + j], the last of
    which sends nothing. *)
Definition nonempty (data : list Byte.byte) : bool :=
  (0 <? List.length data)%nat.

Definition blocks (r : io_Reader) (k j : nat) : list (list Byte.byte) :=
  map (fun i => fst (r i)) (seq k j).

Fixpoint upload_events (r : io_Reader) (k j : nat) : list event :=
  match j with
  | O => [EvRead k]
  | S j' =>
      (EvRead k
       :: (if nonempty (fst (r k)) then [EvSendChunk (fst (r k))] else [])
       ++ upload_events r (S k) j')%list
  end.

Definition is_upload (ev : event) : bool :=
  match ev with
  | EvRead _ => true
  | EvSendChunk _ => true
  | _ => false
  end.

(** Further examples: a transport that connects but fails every write; a
    reader that returns its last bytes together with [io.EOF]; a [Ping]
    whose command is not sent; and a [ScanStream] whose response is
    delivered and whose connection the closer has closed. *)
Definition err_pipe : error := "broken pipe".

Definition env_broken_pipe : Env :=
  mkEnv url_example.Parse
        (fun _ _ => None) (fun _ _ => None)
        (fun _ _ => Some err_pipe) (fun _ _ => Some err_pipe)
        (fun _ => Some err_pipe)
        (fun _ => (None, Some err_pipe))
        1024.

Definition reader_with_EOF : io_Reader :=
  fun k => match k with
           | O => ([x01; x02], Some "EOF")
           | S _ => ([], Some "EOF")
           end.

Definition unsent_schedule : list Tasks.label := [Tasks.LMain; Tasks.LMain].

Definition unsent_state : Tasks.state :=
  Eval vm_compute in
    match Tasks.exec env_broken_pipe net_refusal tcp_client
            (Tasks.Simple "PING") unsent_schedule Tasks.init with
    | Some st => st
    | None => Tasks.init
    end.

Definition completed_schedule : list Tasks.label :=
  (repeat Tasks.LMain 9
   ++ [Tasks.LDeliver; Tasks.LComplete; Tasks.LCloserClose])%list.

Definition completed_state : Tasks.state :=
  Eval vm_compute in
    match Tasks.exec (env_reply [plain "stream: OK"]) net_refusal tcp_client
            (Tasks.Stream (reader_of [[x01; x02]; [x03]]))
            completed_schedule Tasks.init with
    | Some st => st
    | None => Tasks.init
    end.

(** A reader that fails at every [Read] and still yields a byte. *)
Definition reader_failing_with_data : io_Reader :=
  fun _ => ([x01], Some "unexpected EOF").

(** The events of a whole exchange in the order of the statements of
    [simpleCommand] and [ScanStream].  A turn of the upload loop reads and
    sends what it read, when that is not empty and fits the buffer;
    [ScanStream] uploads for [n] turns and sends the terminator. *)
Definition streams (op : operation) : bool :=
  match op with
  | OpScanStream _ _ => true
  | _ => false
  end.

Definition turn_events (env : Env) (r : io_Reader) (i : nat) : list event :=
  EvRead i
  :: (if nonempty (fst (r i))
         && (List.length (fst (r i)) <=? CHUNK_SIZE env)%nat
      then [EvSendChunk (fst (r i))] else []).

Definition uploads (env : Env) (op : operation) (n : nat) : list event :=
  match op with
  | OpScanStream _ r =>
      (flat_map (turn_events env r) (seq 0 n) ++ [EvSendEOF])%list
  | _ => []
  end.

Definition full_exchange (env : Env) (c : Clamd) (op : operation)
  (dial : event) (n : nat) : list event :=
  ([EvParse (address c); dial]
   ++ (if streams op then [EvGo AbortWatcher] else [])
   ++ [EvSendCommand (command_of op)]
   ++ uploads env op n
   ++ [EvReadResponse; EvGo Closer])%list.


(** * Properties *)

(** ** Connections *)

Lemma dialTcp_run (env : Env) (addr : string) (tr : list event) :
  dialTcp env addr tr =
    (Returns (match newCLAMDTcpConn env tr addr with
              | None => (Some (TcpConn addr), None)
              | Some err => (None, Some err)
              end),
     (tr ++ [EvDialTcp addr])%list).
Proof.
  unfold dialTcp, bind, history, emit, ret.
  destruct (newCLAMDTcpConn env tr addr); reflexivity.
Qed.

Lemma dialUnix_run (env : Env) (addr : string) (tr : list event) :
  dialUnix env addr tr =
    (Returns (match newCLAMDUnixConn env tr addr with
              | None => (Some (UnixConn addr), None)
              | Some err => (None, Some err)
              end),
     (tr ++ [EvDialUnix addr])%list).
Proof.
  unfold dialUnix, bind, history, emit, ret.
  destruct (newCLAMDUnixConn env tr addr); reflexivity.
Qed.

(** C1.  [newConnection] first parses the address.  A URL of scheme [tcp]
    leads to exactly one dial, of a TCP connection to the URL's host (the
    [host:port] part); scheme [unix] to one dial of a local socket at the
    URL's path; every other scheme, the empty scheme of a bare string
    included, to one dial of a local socket at the whole address string; and
    when the parse fails its error is returned and nothing is dialled. *)
Theorem newConnection_by_scheme (env : Env) (c : Clamd) (tr : list event) :
  let parsed := (tr ++ [EvParse (address c)])%list in
  (forall u, url_Parse env (address c) = inl u -> url.Scheme u = "tcp" ->
     newConnection env c tr = dialTcp env (url.Host u) parsed
     /\ snd (newConnection env c tr)
        = (tr ++ [EvParse (address c); EvDialTcp (url.Host u)])%list)
  /\ (forall u, url_Parse env (address c) = inl u -> url.Scheme u = "unix" ->
     newConnection env c tr = dialUnix env (url.Path u) parsed
     /\ snd (newConnection env c tr)
        = (tr ++ [EvParse (address c); EvDialUnix (url.Path u)])%list)
  /\ (forall u, url_Parse env (address c) = inl u ->
     url.Scheme u <> "tcp" -> url.Scheme u <> "unix" ->
     newConnection env c tr = dialUnix env (address c) parsed
     /\ snd (newConnection env c tr)
        = (tr ++ [EvParse (address c); EvDialUnix (address c)])%list)
  /\ (forall err, url_Parse env (address c) = inr err ->
     newConnection env c tr = (Returns (None, Some err), parsed)).
Proof.
  intros parsed; subst parsed.
  unfold newConnection, bind, emit, ret.
  repeat split; intros.
  - rewrite H, H0. reflexivity.
  - rewrite H, H0. simpl. rewrite dialTcp_run. simpl.
    rewrite <- app_assoc. reflexivity.
  - rewrite H, H0. reflexivity.
  - rewrite H, H0. simpl. rewrite dialUnix_run. simpl.
    rewrite <- app_assoc. reflexivity.
  - rewrite H.
    destruct (String.eqb_spec (url.Scheme u) "tcp") as [E | _];
      [contradiction |].
    destruct (String.eqb_spec (url.Scheme u) "unix") as [E | _];
      [contradiction |].
    reflexivity.
  - rewrite H.
    destruct (String.eqb_spec (url.Scheme u) "tcp") as [E | _];
      [contradiction |].
    destruct (String.eqb_spec (url.Scheme u) "unix") as [E | _];
      [contradiction |].
    rewrite dialUnix_run. simpl. rewrite <- app_assoc. reflexivity.
  - rewrite H. reflexivity.
Qed.

Lemma newConnection_by_scheme_witness :
  newConnection (env_reply []) tcp_client []
    = (Returns (Some (TcpConn "127.0.0.1:3310"), None),
       [EvParse "tcp://127.0.0.1:3310"; EvDialTcp "127.0.0.1:3310"])
  /\ newConnection (env_reply []) unix_client []
    = (Returns (Some (UnixConn "/var/run/clamd.sock"), None),
       [EvParse "unix:///var/run/clamd.sock";
        EvDialUnix "/var/run/clamd.sock"])
  /\ newConnection (env_reply []) bare_client []
    = (Returns (Some (UnixConn "/var/run/clamd.sock"), None),
       [EvParse "/var/run/clamd.sock"; EvDialUnix "/var/run/clamd.sock"])
  /\ snd (newConnection (env_reply []) bad_client [])
    = [EvParse "127.0.0.1:3310"].
Proof.
  split; [| split; [| split]].
  - destruct (newConnection_by_scheme (env_reply []) tcp_client [])
      as [Htcp _].
    destruct (Htcp (url.mkURL "tcp" "127.0.0.1:3310" "")
                eq_refl eq_refl) as [-> _].
    reflexivity.
  - destruct (newConnection_by_scheme (env_reply []) unix_client [])
      as [_ [Hunix _]].
    destruct (Hunix (url.mkURL "unix" "" "/var/run/clamd.sock")
                eq_refl eq_refl) as [-> _].
    reflexivity.
  - destruct (newConnection_by_scheme (env_reply []) bare_client [])
      as [_ [_ [Hother _]]].
    destruct (Hother (url.mkURL "" "" "/var/run/clamd.sock") eq_refl)
      as [-> _]; [discriminate | discriminate |].
    reflexivity.
  - destruct (newConnection_by_scheme (env_reply []) bad_client [])
      as [_ [_ [_ Herr]]].
    rewrite (Herr _ eq_refl). reflexivity.
Defined.

Lemma newConnection_returns (env : Env) (c : Clamd) (tr : list event) :
  exists r tr1, newConnection env c tr = (Returns r, tr1)
    /\ ((exists conn, r = (Some conn, None)) \/ (exists e, r = (None, Some e))).
Proof.
  unfold newConnection, bind, emit, ret.
  destruct (url_Parse env (address c)) as [u | e].
  - destruct (String.eqb (url.Scheme u) "tcp");
      [| destruct (String.eqb (url.Scheme u) "unix")];
      rewrite ?dialTcp_run, ?dialUnix_run;
      do 2 eexists; (split; [reflexivity |]).
    + destruct (newCLAMDTcpConn env _ _); eauto.
    + destruct (newCLAMDUnixConn env _ _); eauto.
    + destruct (newCLAMDUnixConn env _ _); eauto.
  - do 2 eexists. split; [reflexivity |]. eauto.
Qed.

(** ** [simpleCommand] *)

(** With a connection, [simpleCommand] sends the command and hands back
    what [readResponse] returns; when the send fails, the channel is nil. *)
Lemma simpleCommand_connected
  (env : Env) (c : Clamd) (command : string) (tr tr1 : list event)
  (conn : CLAMDConn) :
  newConnection env c tr = (Returns (Some conn, None), tr1) ->
  simpleCommand env c command tr =
    match sendCommand env tr1 command with
    | Some e => (Returns (None, Some e), (tr1 ++ [EvSendCommand command])%list)
    | None =>
        (Returns (readResponse env (tr1 ++ [EvSendCommand command])%list),
         (tr1 ++ [EvSendCommand command; EvReadResponse; EvGo Closer])%list)
    end.
Proof.
  intros Hc. unfold simpleCommand, bind. rewrite Hc.
  unfold conn_sendCommand, conn_readResponse, bind, history, emit, ret.
  destruct (sendCommand env tr1 command); [reflexivity |].
  destruct (readResponse env _) as [ch err].
  rewrite <- !app_assoc. reflexivity.
Qed.

Lemma simpleCommand_not_connected
  (env : Env) (c : Clamd) (command : string) (tr tr1 : list event)
  (conn : option CLAMDConn) (e : error) :
  newConnection env c tr = (Returns (conn, Some e), tr1) ->
  simpleCommand env c command tr = (Returns (None, Some e), tr1).
Proof.
  intros Hc. unfold simpleCommand, bind. rewrite Hc. reflexivity.
Qed.

(** ** [Stats] *)

(** The loop over a channel either completes with the statistics or stops
    at a record, with an error or a panic. *)
Lemma Stats_range_app (stats stats' : clamd.Stats) (before rest : list ScanResult) :
  Stats_range stats before = Returns (Some stats', None) ->
  Stats_range stats (before ++ rest)%list = Stats_range stats' rest.
Proof.
  revert stats. induction before as [| s before IH]; intros stats H; simpl in *.
  - congruence.
  - destruct (Stats_record stats s) as [[st1 | e] | p | |]; try discriminate.
    now apply IH.
Qed.

Lemma Stats_on_channel
  (env : Env) (c : Clamd) (tr tr' : list event) (rs : list ScanResult) :
  simpleCommand env c "STATS" tr = (Returns (Some rs, None), tr') ->
  Stats env c tr = (Stats_range empty_Stats rs, tr').
Proof.
  intros H. unfold Stats, bind. rewrite H. reflexivity.
Qed.

(** C2.  When the channel of the [STATS] command delivers records whose raw
    texts are POOLS: 1, STATE: VALID, THREADS: live 1 idle 0 max 10, QUEUE: 0,
    MEMSTATS: heap 1M and END, [Stats] returns without error; [Pools] is the
    text after the first six bytes trimmed of spaces (the string 1), and
    [State], [Threads], [Queue] and [Memstats] hold the raw text of their
    record. *)
Theorem Stats_sample_reply
  (env : Env) (c : Clamd) (tr tr' : list event) (rs : list ScanResult) :
  map Raw rs = ["POOLS: 1"; "STATE: VALID"; "THREADS: live 1 idle 0 max 10";
                "QUEUE: 0"; "MEMSTATS: heap 1M"; "END"] ->
  simpleCommand env c "STATS" tr = (Returns (Some rs, None), tr') ->
  Stats env c tr =
    (Returns (Some {| Pools := "1";
                      State := "STATE: VALID";
                      Threads := "THREADS: live 1 idle 0 max 10";
                      Memstats := "MEMSTATS: heap 1M";
                      Queue := "QUEUE: 0" |}, None), tr').
Proof.
  intros Hraw Hch. rewrite (Stats_on_channel _ _ _ _ _ Hch). f_equal.
  do 7 (destruct rs as [| [? ? ? ? ? ?] rs]; try discriminate Hraw).
  simpl in Hraw. injection Hraw as -> -> -> -> -> ->.
  reflexivity.
Qed.

Lemma Stats_sample_reply_witness :
  Stats (env_reply stats_reply) tcp_client [] =
    (Returns (Some (mkStats "1" "STATE: VALID" "THREADS: live 1 idle 0 max 10"
                            "MEMSTATS: heap 1M" "QUEUE: 0"), None),
     [EvParse "tcp://127.0.0.1:3310"; EvDialTcp "127.0.0.1:3310";
      EvSendCommand "STATS"; EvReadResponse; EvGo Closer]).
Proof.
  apply (Stats_sample_reply (env_reply stats_reply) tcp_client [] _ stats_reply).
  - reflexivity.
  - reflexivity.
Defined.

Lemma Stats_record_POOLS (stats : clamd.Stats) (s : ScanResult) :
  Raw s = "POOLS" -> Stats_record stats s = Panics (SliceBounds 6 5).
Proof. intros H. unfold Stats_record. rewrite H. reflexivity. Qed.

(** C10.  A record whose raw text is exactly POOLS makes the loop of [Stats]
    panic on the slice [s.Raw[6:]] (bounds 6 of 5): the body of the loop
    panics on it whatever was collected, and so does [Stats] whenever the
    records before it were consumed; no value and no error is returned. *)
Theorem Stats_panics_on_bare_POOLS (s : ScanResult) :
  Raw s = "POOLS" ->
  (forall stats, Stats_record stats s = Panics (SliceBounds 6 5))
  /\ (forall env c tr tr' before rest stats',
        simpleCommand env c "STATS" tr
          = (Returns (Some (before ++ s :: rest)%list, None), tr') ->
        Stats_range empty_Stats before = Returns (Some stats', None) ->
        Stats env c tr = (Panics (SliceBounds 6 5), tr')).
Proof.
  intros H. split.
  - intros stats. now apply Stats_record_POOLS.
  - intros env c tr tr' before rest stats' Hch Hbefore.
    rewrite (Stats_on_channel _ _ _ _ _ Hch).
    rewrite (Stats_range_app _ _ _ _ Hbefore). simpl.
    now rewrite Stats_record_POOLS.
Qed.

Lemma Stats_panics_on_bare_POOLS_witness :
  Stats (env_reply (map plain ["STATE: VALID"; "POOLS"; "END"])) tcp_client []
  = (Panics (SliceBounds 6 5),
     [EvParse "tcp://127.0.0.1:3310"; EvDialTcp "127.0.0.1:3310";
      EvSendCommand "STATS"; EvReadResponse; EvGo Closer]).
Proof.
  destruct (Stats_panics_on_bare_POOLS (plain "POOLS") eq_refl) as [_ H].
  apply (H (env_reply (map plain ["STATE: VALID"; "POOLS"; "END"]))
           tcp_client [] _ [plain "STATE: VALID"] [plain "END"]
           (set_State empty_Stats "STATE: VALID")).
  - reflexivity.
  - reflexivity.
Defined.

(** A record that starts with END changes nothing and the loop goes on. *)
Lemma Stats_record_END (stats : clamd.Stats) (s : ScanResult) :
  strings.HasPrefix (Raw s) "END" = true ->
  Stats_record stats s = Returns (inl stats).
Proof.
  unfold Stats_record, strings.HasPrefix. intros H.
  destruct (Raw s) as [| a1 [| a2 [| a3 r]]];
    cbn [String.prefix] in H; try discriminate;
    destruct (ascii_dec "E" a1) as [<- |]; try discriminate;
    destruct (ascii_dec "N" a2) as [<- |]; try discriminate.
  destruct (ascii_dec "D" a3) as [<- |]; [| discriminate].
  destruct r; reflexivity.
Qed.

(** A record of no known prefix ends the loop with an error. *)
Lemma Stats_record_unknown (stats : clamd.Stats) (s : ScanResult) :
  recognized (Raw s) = false ->
  Stats_record stats s = Returns (inr (unknown_response s)).
Proof.
  unfold recognized, Stats_record. intros H.
  repeat (apply orb_false_elim in H; destruct H as [H ?]).
  repeat match goal with E : _ = false |- _ => rewrite E; clear E end.
  reflexivity.
Qed.

Lemma string_app_assoc (a b c : string) : (a ++ b) ++ c = a ++ (b ++ c).
Proof. induction a as [| x a IH]; simpl; [reflexivity | now rewrite IH]. Qed.

(** The message of that error contains the raw text of the record. *)
Lemma unknown_response_names_record (s : ScanResult) :
  exists before rest, unknown_response s = before ++ Raw s ++ rest.
Proof.
  exists "Unknown response, got &{". eexists.
  unfold unknown_response, errors.New, fmt.v_ScanResult. simpl.
  rewrite string_app_assoc. reflexivity.
Qed.

(** Away from the panic of the POOLS case, the loop does what is asked of
    it: once the records before an unknown one are consumed, [Stats] returns
    no value and the error that names the record. *)
Lemma Stats_unknown_record
  (env : Env) (c : Clamd) (tr tr' : list event)
  (before rest : list ScanResult) (s : ScanResult) (stats' : clamd.Stats) :
  simpleCommand env c "STATS" tr
    = (Returns (Some (before ++ s :: rest)%list, None), tr') ->
  Stats_range empty_Stats before = Returns (Some stats', None) ->
  recognized (Raw s) = false ->
  Stats env c tr = (Returns (None, Some (unknown_response s)), tr').
Proof.
  intros Hch Hbefore Hs.
  rewrite (Stats_on_channel _ _ _ _ _ Hch).
  rewrite (Stats_range_app _ _ _ _ Hbefore). simpl.
  now rewrite Stats_record_unknown.
Qed.

(** C3, at the input on which the code departs from it.  The reply POOLS,
    BOGUS: x holds a record of no known prefix, yet [Stats] does not fail
    with an error naming it: the loop panics on the first record. *)
Theorem Stats_panics_before_unknown_record :
  recognized "BOGUS: x" = false
  /\ Stats (env_reply (map plain ["POOLS"; "BOGUS: x"])) tcp_client []
     = (Panics (SliceBounds 6 5),
        [EvParse "tcp://127.0.0.1:3310"; EvDialTcp "127.0.0.1:3310";
         EvSendCommand "STATS"; EvReadResponse; EvGo Closer]).
Proof. split; reflexivity. Qed.

(** ** [Ping] *)

(** On a first record, [Ping] succeeds exactly when its raw text is PONG. *)
Lemma Ping_first_record
  (env : Env) (c : Clamd) (tr tr' : list event)
  (s : ScanResult) (rest : list ScanResult) :
  simpleCommand env c "PING" tr = (Returns (Some (s :: rest), None), tr') ->
  Ping env c tr
  = (Returns (if String.eqb (Raw s) "PONG" then None
              else Some (invalid_response s)), tr').
Proof.
  intros H. unfold Ping, bind. rewrite H. simpl.
  destruct (String.eqb (Raw s) "PONG"); reflexivity.
Qed.

Lemma Ping_success_iff
  (env : Env) (c : Clamd) (tr tr' : list event)
  (s : ScanResult) (rest : list ScanResult) :
  simpleCommand env c "PING" tr = (Returns (Some (s :: rest), None), tr') ->
  (fst (Ping env c tr) = Returns None <-> Raw s = "PONG").
Proof.
  intros H. rewrite (Ping_first_record _ _ _ _ _ _ H). simpl.
  destruct (String.eqb_spec (Raw s) "PONG"); split; intros; try easy.
Qed.

(** A channel closed before any record yields a nil pointer, and [s.Raw]
    panics. *)
Lemma Ping_closed_channel
  (env : Env) (c : Clamd) (tr tr' : list event) :
  simpleCommand env c "PING" tr = (Returns (Some [], None), tr') ->
  Ping env c tr = (Panics NilDereference, tr').
Proof. intros H. unfold Ping, bind. rewrite H. reflexivity. Qed.

(** C4, at the input on which the code departs from it.  When the daemon
    closes the connection without a reply, the channel is closed with no
    record and [Ping] neither succeeds nor returns an error: it panics on the
    nil pointer it received. *)
Theorem Ping_panics_on_empty_reply :
  Ping (env_reply []) tcp_client []
  = (Panics NilDereference,
     [EvParse "tcp://127.0.0.1:3310"; EvDialTcp "127.0.0.1:3310";
      EvSendCommand "PING"; EvReadResponse; EvGo Closer]).
Proof. now apply Ping_closed_channel. Qed.

(** ** Traces *)

Lemma commands_app (l1 l2 : list event) :
  commands (l1 ++ l2)%list = (commands l1 ++ commands l2)%list.
Proof.
  induction l1 as [| e l1 IH]; simpl; [reflexivity |].
  destruct e; simpl; now rewrite IH.
Qed.

Lemma parses_app (l1 l2 : list event) :
  parses (l1 ++ l2)%list = (parses l1 ++ parses l2)%list.
Proof.
  induction l1 as [| e l1 IH]; simpl; [reflexivity |].
  destruct e; simpl; now rewrite IH.
Qed.

Lemma frames_app (l1 l2 : list event) :
  frames (l1 ++ l2)%list = (frames l1 ++ frames l2)%list.
Proof.
  induction l1 as [| e l1 IH]; simpl; [reflexivity |].
  destruct e; simpl; now rewrite IH.
Qed.

(** [newConnection] adds the parse and at most one dial to the trace. *)
Lemma newConnection_trace (env : Env) (c : Clamd) (tr : list event) :
  exists evs, snd (newConnection env c tr) = (tr ++ evs)%list
    /\ commands evs = [] /\ frames evs = [] /\ parses evs = [address c].
Proof.
  unfold newConnection, bind, emit, ret.
  destruct (url_Parse env (address c)) as [u | e].
  - destruct (String.eqb (url.Scheme u) "tcp");
      [| destruct (String.eqb (url.Scheme u) "unix")];
      rewrite ?dialTcp_run, ?dialUnix_run; simpl; rewrite <- app_assoc;
      eexists; (split; [reflexivity |]); simpl; auto.
  - simpl. eexists; (split; [reflexivity |]); simpl; auto.
Qed.

(** ** The scans of files *)

Lemma scan_operation_unfold
  (v : variant) (env : Env) (c : Clamd) (path : string) :
  scan_operation v env c path =
    ('(ch, err) <- simpleCommand env c (variant_word v ++ " " ++ path) ;;
     s <- recv ch ;;
     ret (s, err)).
Proof. destruct v; reflexivity. Qed.

(** C5.  Each of [ScanFile], [RawScanFile], [MultiScanFile], [ContScanFile]
    and [AllMatchScanFile] sends, once the connection is there, exactly one
    command: the word of its variant, one space and the path as given; and
    when [simpleCommand] hands back the channel of the response, the
    operation returns the first record of it (the nil pointer of a channel
    closed without a record) along with [simpleCommand]'s error. *)
Theorem scan_operation_command_and_first_record
  (env : Env) (c : Clamd) (v : variant) (path : string) (tr : list event) :
  let command := variant_word v ++ " " ++ path in
  (forall conn tr1,
      newConnection env c tr = (Returns (Some conn, None), tr1) ->
      commands (snd (scan_operation v env c path tr))
      = (commands tr ++ [command])%list)
  /\ (forall rs err tr',
      simpleCommand env c command tr = (Returns (Some rs, err), tr') ->
      scan_operation v env c path tr = (Returns (hd_error rs, err), tr')).
Proof.
  intros command. rewrite scan_operation_unfold. fold command. split.
  - intros conn tr1 Hc.
    destruct (newConnection_trace env c tr) as (evs & Htr & Hcmd & _).
    rewrite Hc in Htr. simpl in Htr. subst tr1.
    unfold bind. rewrite (simpleCommand_connected _ _ _ _ _ _ Hc).
    destruct (sendCommand env _ command).
    + simpl. rewrite !commands_app, Hcmd. simpl. now rewrite app_nil_r.
    + destruct (readResponse env _) as [[[| s rs] |] err]; simpl;
        rewrite !commands_app, Hcmd; simpl; now rewrite app_nil_r.
  - intros rs err tr' H. unfold bind. rewrite H.
    destruct rs; reflexivity.
Qed.

(** Without a connection there is no channel: the receive on the nil
    channel blocks the scan for ever. *)
Lemma scan_operation_blocks_without_connection
  (env : Env) (c : Clamd) (v : variant) (path : string) (tr tr1 : list event)
  (conn : option CLAMDConn) (e : error) :
  newConnection env c tr = (Returns (conn, Some e), tr1) ->
  scan_operation v env c path tr = (Blocks, tr1).
Proof.
  intros Hc. rewrite scan_operation_unfold. unfold bind.
  now rewrite (simpleCommand_not_connected _ _ _ _ _ _ _ Hc).
Qed.

Lemma scan_operation_command_and_first_record_witness :
  commands (snd (MultiScanFile
                   (env_reply (map plain ["/srv/a: OK"; "/srv/b: OK"]))
                   unix_client "/srv" []))
  = ["MULTISCAN /srv"]
  /\ fst (MultiScanFile (env_reply (map plain ["/srv/a: OK"; "/srv/b: OK"]))
                        unix_client "/srv" [])
     = Returns (Some (plain "/srv/a: OK"), None).
Proof.
  destruct (scan_operation_command_and_first_record
              (env_reply (map plain ["/srv/a: OK"; "/srv/b: OK"]))
              unix_client MULTISCAN "/srv" []) as [Hsend Hfirst].
  split.
  - apply (Hsend (UnixConn "/var/run/clamd.sock")
                 [EvParse "unix:///var/run/clamd.sock";
                  EvDialUnix "/var/run/clamd.sock"]).
    reflexivity.
  - change (MultiScanFile ?e ?c ?p ?t) with (scan_operation MULTISCAN e c p t).
    rewrite (Hfirst (map plain ["/srv/a: OK"; "/srv/b: OK"]) None _ eq_refl).
    reflexivity.
Defined.

(** ** [ScanStream]: the upload *)

Section Upload.

Variable env : Env.
Variable conn : CLAMDConn.
Variable r : io_Reader.

(** One turn reads once and sends at most one chunk, a non-empty one. *)
Lemma upload_turn_run (k : nat) (tr : list event) :
  upload_turn env conn r k tr =
    let data := fst (r k) in
    if (0 <? List.length data)%nat then
      if (List.length data <=? CHUNK_SIZE env)%nat
      then (Returns (sendChunk env (tr ++ [EvRead k])%list data),
            (tr ++ [EvRead k; EvSendChunk data])%list)
      else (Panics (SliceBounds (List.length data) (CHUNK_SIZE env)),
            (tr ++ [EvRead k])%list)
    else (Returns (snd (r k)), (tr ++ [EvRead k])%list).
Proof.
  unfold upload_turn, bind, emit. destruct (r k) as [data rerr]. simpl.
  destruct (0 <? List.length data)%nat; [| reflexivity].
  destruct (List.length data <=? CHUNK_SIZE env)%nat; [| reflexivity].
  unfold conn_sendChunk, bind, history, emit, ret.
  now rewrite <- app_assoc.
Qed.

Lemma upload_trace (fuel k : nat) (tr : list event) :
  exists evs chunks,
    snd (upload env fuel conn r k tr) = (tr ++ evs)%list
    /\ frames evs = map Some chunks
    /\ Forall (fun data => 0 < List.length data) chunks
    /\ commands evs = [] /\ parses evs = [].
Proof.
  revert k tr. induction fuel as [| fuel IH]; intros k tr.
  - exists [], []. simpl. rewrite app_nil_r. auto.
  - cbn [upload]. unfold bind. rewrite upload_turn_run. cbv zeta.
    destruct (0 <? List.length (fst (r k)))%nat eqn:Hpos.
    + apply Nat.ltb_lt in Hpos.
      destruct (List.length (fst (r k)) <=? CHUNK_SIZE env)%nat.
      * destruct (sendChunk env _ _).
        -- exists [EvRead k; EvSendChunk (fst (r k))], [fst (r k)].
           simpl. auto.
        -- destruct (IH (S k) (tr ++ [EvRead k; EvSendChunk (fst (r k))])%list)
             as (evs & chunks & Htr & Hfr & Hne & Hcmd & Hp).
           exists ([EvRead k; EvSendChunk (fst (r k))] ++ evs)%list,
                  (fst (r k) :: chunks).
           rewrite Htr, <- app_assoc. simpl. rewrite Hfr. auto.
      * exists [EvRead k], []. simpl. auto.
    + destruct (snd (r k)).
      * exists [EvRead k], []. simpl. auto.
      * destruct (IH (S k) (tr ++ [EvRead k])%list)
          as (evs & chunks & Htr & Hfr & Hne & Hcmd & Hp).
        exists ([EvRead k] ++ evs)%list, chunks.
        rewrite Htr, <- app_assoc. simpl. auto.
Qed.

(** The loop exits when the reader ends: [fuel] turns are enough for a
    reader whose [j]-th [Read], [j < fuel], yields no bytes and an
    error. *)
Lemma upload_exits (j : nat) :
  forall (fuel k : nat) (tr : list event) (e : error),
    r (k + j) = ([], Some e) -> j < fuel ->
    fst (upload env fuel conn r k tr) <> OutOfFuel.
Proof.
  induction j as [| j IH]; intros fuel k tr e Hr Hlt;
    (destruct fuel as [| fuel]; [lia |]);
    cbn [upload]; unfold bind; rewrite upload_turn_run; cbv zeta.
  - rewrite Nat.add_0_r in Hr. rewrite Hr. simpl. discriminate.
  - destruct (0 <? List.length (fst (r k)))%nat.
    + destruct (List.length (fst (r k)) <=? CHUNK_SIZE env)%nat;
        [| simpl; discriminate].
      destruct (sendChunk env _ _); [simpl; discriminate |].
      apply (IH fuel (S k) _ e); [| lia].
      now replace (S k + j) with (k + S j) by lia.
    + destruct (snd (r k)); [simpl; discriminate |].
      apply (IH fuel (S k) _ e); [| lia].
      now replace (S k + j) with (k + S j) by lia.
Qed.

End Upload.

(** [ScanStream] with a connection, step by step. *)
Lemma ScanStream_connected
  (env : Env) (fuel : nat) (c : Clamd) (r : io_Reader)
  (tr tr1 : list event) (conn : CLAMDConn) :
  newConnection env c tr = (Returns (Some conn, None), tr1) ->
  ScanStream env fuel c r tr =
    match sendCommand env (tr1 ++ [EvGo AbortWatcher])%list "INSTREAM" with
    | Some e =>
        (Returns (None, Some e),
         (tr1 ++ [EvGo AbortWatcher; EvSendCommand "INSTREAM"])%list)
    | None =>
        match upload env fuel conn r 0
                (tr1 ++ [EvGo AbortWatcher; EvSendCommand "INSTREAM"])%list
        with
        | (Returns _, tr4) =>
            match sendEOF env tr4 with
            | Some e => (Returns (None, Some e), (tr4 ++ [EvSendEOF])%list)
            | None =>
                (Returns (fst (readResponse env (tr4 ++ [EvSendEOF])%list),
                          None),
                 (tr4 ++ [EvSendEOF; EvReadResponse; EvGo Closer])%list)
            end
        | (Panics p, tr4) => (Panics p, tr4)
        | (Blocks, tr4) => (Blocks, tr4)
        | (OutOfFuel, tr4) => (OutOfFuel, tr4)
        end
    end.
Proof.
  intros Hc. unfold ScanStream, bind. rewrite Hc.
  unfold conn_sendCommand, conn_sendEOF, conn_readResponse,
    bind, history, emit, ret.
  rewrite <- !app_assoc. simpl.
  destruct (sendCommand env _ _); [reflexivity |].
  destruct (upload env fuel conn r 0 _) as [[[] | p | |] tr4]; try reflexivity.
  destruct (sendEOF env tr4); [reflexivity |].
  destruct (readResponse env _) as [ch err].
  rewrite <- !app_assoc. reflexivity.
Qed.

Lemma ScanStream_not_connected
  (env : Env) (fuel : nat) (c : Clamd) (r : io_Reader)
  (tr tr1 : list event) (conn : option CLAMDConn) (e : error) :
  newConnection env c tr = (Returns (conn, Some e), tr1) ->
  ScanStream env fuel c r tr = (Returns (None, Some e), tr1).
Proof. intros Hc. unfold ScanStream, bind. rewrite Hc. reflexivity. Qed.

(** C6.  What [ScanStream] writes after the command is a sequence of
    chunks followed by at most one zero-length terminator.  Every chunk
    handed to [sendChunk] has a length above zero; whenever the upload loop
    exits, the terminator is written, once, by [sendEOF] and after all the
    chunks; and the loop does exit when the reader ends: [fuel] turns are
    enough for a reader whose [j]-th [Read], [j < fuel], yields no bytes and
    an error. *)
Theorem ScanStream_chunks_then_terminator
  (env : Env) (fuel : nat) (c : Clamd) (r : io_Reader) (tr : list event) :
  exists chunks tail,
    frames (snd (ScanStream env fuel c r tr))
    = (frames tr ++ map Some chunks ++ tail)%list
    /\ Forall (fun data => 0 < List.length data) chunks
    /\ (tail = [] \/ tail = [None])
    /\ (forall conn tr1,
          newConnection env c tr = (Returns (Some conn, None), tr1) ->
          sendCommand env (tr1 ++ [EvGo AbortWatcher])%list "INSTREAM" = None ->
          fst (upload env fuel conn r 0
                 (tr1 ++ [EvGo AbortWatcher; EvSendCommand "INSTREAM"])%list)
          = Returns tt ->
          tail = [None])
    /\ (forall j e, r j = ([], Some e) -> j < fuel ->
          fst (ScanStream env fuel c r tr) <> OutOfFuel).
Proof.
  destruct (newConnection_returns env c tr)
    as (res & tr1 & Hc & [[conn ->] | [e ->]]);
    destruct (newConnection_trace env c tr) as (evs & Htr & _ & Hfr & _);
    rewrite Hc in Htr; simpl in Htr; subst tr1.
  - rewrite (ScanStream_connected _ _ _ _ _ _ _ Hc).
    destruct (sendCommand env _ "INSTREAM") as [e |] eqn:Hcmd.
    + exists [], []. simpl. rewrite !frames_app, Hfr. simpl.
      rewrite app_nil_r. split; [reflexivity |].
      split; [constructor |]. split; [now left |]. split.
      * intros conn' tr1 H. rewrite Hc in H. injection H as <- <-. congruence.
      * intros j e0 _ _. discriminate.
    + set (tr3 := ((tr ++ evs) ++
                   [EvGo AbortWatcher; EvSendCommand "INSTREAM"])%list).
      destruct (upload_trace env conn r fuel 0 tr3)
        as (uevs & chunks & Hu & Hufr & Hne & _).
      assert (Hfr3 : frames tr3 = frames tr).
      { unfold tr3. rewrite !frames_app, Hfr. simpl. now rewrite !app_nil_r. }
      assert (Hexit : forall j e0, r j = ([], Some e0) -> j < fuel ->
                fst (upload env fuel conn r 0 tr3) <> OutOfFuel).
      { intros j e0 Hr Hlt. now apply (upload_exits env conn r j fuel 0 tr3 e0). }
      assert (Hloop : forall conn' tr1,
                newConnection env c tr = (Returns (Some conn', None), tr1) ->
                conn' = conn /\
                (tr1 ++ [EvGo AbortWatcher; EvSendCommand "INSTREAM"])%list = tr3).
      { intros conn' tr1 H. rewrite Hc in H. now injection H as <- <-. }
      destruct (upload env fuel conn r 0 tr3) as [[[] | p | |] tr4] eqn:Hup;
        simpl in Hu; subst tr4.
      * exists chunks, [None].
        split.
        { destruct (sendEOF env _); simpl;
            rewrite !frames_app, Hfr3, Hufr; simpl;
            now rewrite <- ?app_assoc. }
        split; [exact Hne |]. split; [now right |]. split; [reflexivity |].
        intros j e0 _ _. destruct (sendEOF env _); discriminate.
      * exists chunks, []. simpl. rewrite !frames_app, Hfr3, Hufr.
        split; [now rewrite app_nil_r |]. split; [exact Hne |]. split; [now left |].
        split; [| intros j e0 _ _; discriminate].
        intros conn' tr1 H _. destruct (Hloop _ _ H) as [-> ->].
        rewrite Hup. discriminate.
      * exists chunks, []. simpl. rewrite !frames_app, Hfr3, Hufr.
        split; [now rewrite app_nil_r |]. split; [exact Hne |]. split; [now left |].
        split; [| intros j e0 _ _; discriminate].
        intros conn' tr1 H _. destruct (Hloop _ _ H) as [-> ->].
        rewrite Hup. discriminate.
      * exists chunks, []. simpl. rewrite !frames_app, Hfr3, Hufr.
        split; [now rewrite app_nil_r |]. split; [exact Hne |]. split; [now left |].
        split.
        -- intros conn' tr1 H _. destruct (Hloop _ _ H) as [-> ->].
           rewrite Hup. discriminate.
        -- intros j e0 Hr Hlt. exfalso. now apply (Hexit j e0 Hr Hlt).
  - rewrite (ScanStream_not_connected _ _ _ _ _ _ _ _ Hc).
    exists [], []. simpl. rewrite frames_app, Hfr.
    split; [reflexivity |]. split; [constructor |]. split; [now left |].
    split; [| intros j e0 _ _; discriminate].
    intros conn tr1 H. rewrite Hc in H. discriminate.
Qed.

Lemma ScanStream_chunks_then_terminator_witness :
  exists chunks,
    frames (snd (ScanStream (env_reply [plain "stream: OK"]) 3 tcp_client
                   (reader_of [[x01; x02]; [x03]]) []))
    = (map Some chunks ++ [None])%list
    /\ Forall (fun data => 0 < List.length data) chunks
    /\ fst (ScanStream (env_reply [plain "stream: OK"]) 3 tcp_client
              (reader_of [[x01; x02]; [x03]]) []) <> OutOfFuel.
Proof.
  destruct (ScanStream_chunks_then_terminator
              (env_reply [plain "stream: OK"]) 3 tcp_client
              (reader_of [[x01; x02]; [x03]]) [])
    as (chunks & tail & Hfr & Hne & _ & Hexit & Hfuel).
  exists chunks.
  rewrite (Hexit (TcpConn "127.0.0.1:3310")
                 [EvParse "tcp://127.0.0.1:3310"; EvDialTcp "127.0.0.1:3310"]
                 eq_refl eq_refl eq_refl) in Hfr.
  split; [exact Hfr |]. split; [exact Hne |].
  apply (Hfuel 2 "EOF"); [reflexivity | lia].
Defined.

(** ** The address *)

Lemma simpleCommand_trace
  (env : Env) (c : Clamd) (command : string) (tr : list event) :
  exists evs, snd (simpleCommand env c command tr) = (tr ++ evs)%list
    /\ parses evs = [address c].
Proof.
  destruct (newConnection_returns env c tr)
    as (res & tr1 & Hc & [[conn ->] | [e ->]]);
    destruct (newConnection_trace env c tr) as (evs & Htr & _ & _ & Hp);
    rewrite Hc in Htr; simpl in Htr; subst tr1.
  - rewrite (simpleCommand_connected _ _ _ _ _ _ Hc).
    destruct (sendCommand env _ command); simpl; rewrite <- app_assoc;
      eexists; (split; [reflexivity |]); rewrite parses_app, Hp; reflexivity.
  - rewrite (simpleCommand_not_connected _ _ _ _ _ _ _ Hc). simpl.
    now exists evs.
Qed.

(** What follows [simpleCommand] in an operation adds no event. *)
Ltac after_simpleCommand :=
  unfold bind, recv, deref, lift, ret;
  destruct (simpleCommand _ _ _ _) as [[[ch err] | p | |] tr'];
  simpl; try reflexivity;
  repeat (match goal with
          | |- context [match ?x with _ => _ end] => is_var x; destruct x
          | |- context [String.eqb ?x ?y] => destruct (String.eqb x y)
          | |- context [Stats_range ?x ?y] => destruct (Stats_range x y)
          end; simpl; try reflexivity).

Lemma Ping_trace (env : Env) (c : Clamd) (tr : list event) :
  snd (Ping env c tr) = snd (simpleCommand env c "PING" tr).
Proof. unfold Ping. after_simpleCommand. Qed.

Lemma Version_trace (env : Env) (c : Clamd) (tr : list event) :
  snd (Version env c tr) = snd (simpleCommand env c "VERSION" tr).
Proof. unfold Version. after_simpleCommand. Qed.

Lemma Stats_trace (env : Env) (c : Clamd) (tr : list event) :
  snd (Stats env c tr) = snd (simpleCommand env c "STATS" tr).
Proof. unfold Stats. after_simpleCommand. Qed.

Lemma Reload_trace (env : Env) (c : Clamd) (tr : list event) :
  snd (Reload env c tr) = snd (simpleCommand env c "RELOAD" tr).
Proof. unfold Reload. after_simpleCommand. Qed.

Lemma Shutdown_trace (env : Env) (c : Clamd) (tr : list event) :
  snd (Shutdown env c tr) = snd (simpleCommand env c "SHUTDOWN" tr).
Proof. unfold Shutdown. after_simpleCommand. Qed.

Lemma scan_operation_trace
  (v : variant) (env : Env) (c : Clamd) (path : string) (tr : list event) :
  snd (scan_operation v env c path tr)
  = snd (simpleCommand env c (variant_word v ++ " " ++ path) tr).
Proof. rewrite scan_operation_unfold. after_simpleCommand. Qed.

Lemma ScanStream_trace
  (env : Env) (fuel : nat) (c : Clamd) (r : io_Reader) (tr : list event) :
  exists evs, snd (ScanStream env fuel c r tr) = (tr ++ evs)%list
    /\ parses evs = [address c].
Proof.
  destruct (newConnection_returns env c tr)
    as (res & tr1 & Hc & [[conn ->] | [e ->]]);
    destruct (newConnection_trace env c tr) as (evs & Htr & _ & _ & Hp);
    rewrite Hc in Htr; simpl in Htr; subst tr1.
  - rewrite (ScanStream_connected _ _ _ _ _ _ _ Hc).
    destruct (sendCommand env _ "INSTREAM").
    + simpl. rewrite <- app_assoc. eexists. split; [reflexivity |].
      rewrite parses_app, Hp. reflexivity.
    + destruct (upload_trace env conn r fuel 0
                  ((tr ++ evs) ++
                   [EvGo AbortWatcher; EvSendCommand "INSTREAM"])%list)
        as (uevs & chunks & Hu & _ & _ & _ & Hup).
      destruct (upload env fuel conn r 0 _) as [[[] | p | |] tr4];
        simpl in Hu; subst tr4; [destruct (sendEOF env _) | | |]; simpl;
        rewrite <- !app_assoc; eexists; (split; [reflexivity |]);
        rewrite !parses_app, Hp, Hup; reflexivity.
  - rewrite (ScanStream_not_connected _ _ _ _ _ _ _ _ Hc). simpl.
    now exists evs.
Qed.

Lemma operation_parses_once
  (env : Env) (c : Clamd) (op : operation) (tr : list event) :
  parses (trace_of env c op tr) = (parses tr ++ [address c])%list.
Proof.
  assert (H : exists evs,
             trace_of env c op tr = (tr ++ evs)%list
             /\ parses evs = [address c]).
  { destruct op; simpl;
      rewrite ?Ping_trace, ?Version_trace, ?Stats_trace, ?Reload_trace,
        ?Shutdown_trace, ?scan_operation_trace;
      first [apply simpleCommand_trace | apply ScanStream_trace]. }
  destruct H as (evs & -> & Hp). now rewrite parses_app, Hp.
Qed.

(** C9, as the code has it.  [NewClamd] keeps the address string as it is
    given and parses nothing; the client is never changed; and every call of
    a public operation parses that same string anew, exactly once: after any
    calls in a row the address has been parsed once for each call. *)
Theorem address_kept_and_parsed_by_each_call
  (env : Env) (addr : string) (ops : list operation) (tr : list event) :
  address (NewClamd addr) = addr
  /\ parses (trace_of_calls env (NewClamd addr) ops tr)
     = (parses tr ++ repeat addr (List.length ops))%list.
Proof.
  split; [reflexivity |].
  revert tr. induction ops as [| op ops IH]; intros tr; simpl.
  - now rewrite app_nil_r.
  - rewrite IH, operation_parses_once, <- app_assoc. reflexivity.
Qed.

(** C9, as the specification has it, fails: a client is built from an
    address that does not parse, and two calls parse the address twice. *)
Lemma address_parsed_at_every_call :
  (exists err, url_example.Parse (address (NewClamd "127.0.0.1:3310")) = inr err)
  /\ parses (trace_of_calls (env_reply [plain "PONG"]) tcp_client
               [OpPing; OpPing] [])
     = ["tcp://127.0.0.1:3310"; "tcp://127.0.0.1:3310"].
Proof. split; [eexists |]; reflexivity. Qed.

(** * The tasks of a call: what every interleaving keeps *)

Section TasksInvariant.

Import Tasks.

Variable env : Env.
Variable refusal : list event -> option error.
Variable c : Clamd.
Variable the_call : call.

Local Abbreviation step := (Tasks.step env refusal c the_call).
Local Abbreviation exec := (Tasks.exec env refusal c the_call).
Local Abbreviation invariant := (Tasks.invariant the_call).

Lemma exec_app (s1 s2 : list label) (st : state) :
  exec (s1 ++ s2)%list st =
    match exec s1 st with
    | Some st' => exec s2 st'
    | None => None
    end.
Proof.
  revert st. induction s1 as [| l s1 IH]; intros st; simpl; [reflexivity |].
  destruct (step l st); [apply IH | reflexivity].
Qed.

(** A step of the calling goroutine that runs a statement [m] changes
    its place and the trace only. *)
Lemma after_cases {A} (st st' : state) (m : M A) (next : A -> main_pc) :
  after st m next = Some st' ->
  exists pc tr', st' = set_main st pc tr'
    /\ ((exists a, fst (m (trace st)) = Returns a /\ pc = next a)
        \/ (exists p, pc = MPanicked p)).
Proof.
  unfold after. destruct (m (trace st)) as [[a | p | |] tr'] eqn:Hm;
    intros H; inversion H; subst; do 2 eexists; (split; [reflexivity |]).
  - left. now exists a.
  - right. now exists p.
Qed.

Lemma invariant_init : invariant init.
Proof.
  constructor; simpl; intuition congruence.
Qed.

Lemma closed_by_watcher (l : list goroutine) :
  l <> [] -> ~ In Closer l -> In AbortWatcher l.
Proof.
  destruct l as [| [|] l]; simpl; intros Hne Hno; [easy | | now left].
  exfalso. apply Hno. now left.
Qed.

Ltac use_inv H :=
  destruct H as [Hbefore Habsent Hdecoding Hdone Hcdone Hcclose
                   Hwclose Hwcancel Hwlaunch Hmw Hms Hmc Hclaunch Hmu].

Ltac routine :=
  constructor; simpl; auto; try congruence;
  try solve [intuition congruence];
  try solve [intros HH; apply in_app_or in HH; simpl in HH;
             intuition congruence];
  try solve [intros HH; rewrite in_app_iff; simpl; intuition congruence];
  try solve [intros ? ? HH;
             match goal with
             | H : forall ch err, main _ = MLaunchCloser ch err -> _ |- _ =>
                 apply H in HH; congruence
             end];
  try solve [intros [HH | [? HH]]; congruence].

Lemma invariant_abort_send (b : bool) (st st' : state) :
  invariant st -> abort_send b st = Some st' -> invariant st'.
Proof.
  intros Hinv. unfold abort_send.
  destruct (abort_closed st) eqn:Hab; [discriminate |].
  intros H; inversion H; subst; clear H. use_inv Hinv.
  routine.
Qed.

Lemma invariant_abort_close (st st' : state) :
  invariant st -> abort_close st = Some st' -> invariant st'.
Proof.
  intros Hinv. unfold abort_close.
  destruct (abort_closed st) eqn:Hab; [discriminate |].
  intros H; inversion H; subst; clear H. use_inv Hinv.
  routine.
Qed.

Lemma invariant_watcher_receive (st st' : state) :
  invariant st -> watcher_receive st = Some st' -> invariant st'.
Proof.
  intros Hinv. unfold watcher_receive.
  destruct (watcher st) eqn:Hw; try discriminate.
  destruct (abort_queue st) as [| b queue] eqn:Hq.
  - destruct (abort_closed st) eqn:Hab; [| discriminate].
    intros H; inversion H; subst; clear H. use_inv Hinv.
    routine.
  - intros H; inversion H; subst; clear H. use_inv Hinv.
    routine.
Qed.

Lemma invariant_watcher_close (st st' : state) :
  invariant st -> watcher_close st = Some st' -> invariant st'.
Proof.
  intros Hinv. unfold watcher_close.
  destruct (watcher st) eqn:Hw; try discriminate.
  intros H; inversion H; subst; clear H. use_inv Hinv.
  routine.
Qed.

Lemma invariant_decoder_deliver (st st' : state) :
  invariant st -> decoder_deliver st = Some st' -> invariant st'.
Proof.
  intros Hinv. unfold decoder_deliver.
  destruct (decoder st) as [| [| s pending] |] eqn:Hd; try discriminate.
  intros H; inversion H; subst; clear H. use_inv Hinv.
  destruct (Hdecoding _ Hd) as (Hwg & Hcl & Hresp).
  routine.
  intros pending' Hp. injection Hp as <-.
  repeat split; auto.
  rewrite <- app_assoc. simpl. exact Hresp.
Qed.

Lemma invariant_decoder_complete (st st' : state) :
  invariant st -> decoder_complete st = Some st' -> invariant st'.
Proof.
  intros Hinv. unfold decoder_complete.
  destruct (decoder st) as [| pending |] eqn:Hd; try discriminate.
  destruct (match pending with [] => true | _ :: _ => conn_closed st end)
    eqn:Hend; [| discriminate].
  intros H; inversion H; subst; clear H. use_inv Hinv.
  destruct (Hdecoding _ Hd) as (Hwg & Hcl & Hresp).
  routine.
  intros _. split; [now rewrite Hwg |].
  destruct pending as [| s pending].
  - left. now rewrite app_nil_r in Hresp.
  - right. apply closed_by_watcher.
    + unfold conn_closed in Hend. destruct (closes st); easy.
    + intros Hin. now apply Hcl, Hcclose.
Qed.

Lemma invariant_closer_close (st st' : state) :
  invariant st -> closer_close st = Some st' -> invariant st'.
Proof.
  intros Hinv. unfold closer_close.
  destruct (closer st) eqn:Hc; try discriminate.
  destruct (wg st) eqn:Hwg; try discriminate.
  intros H; inversion H; subst; clear H. use_inv Hinv.
  assert (Hd : decoder st = DDone).
  { destruct (decoder st) as [| pending |] eqn:Hd; [| | reflexivity].
    - destruct (Habsent eq_refl) as [Hca _]. congruence.
    - destruct (Hdecoding _ eq_refl) as [Hw1 _]. congruence. }
  routine.
Qed.


Lemma invariant_set_main (st : state) (pc : main_pc) (tr' : list event) :
  invariant st -> before_response (main st) = true ->
  (forall ch err, pc <> MLaunchCloser ch err) ->
  pc <> MConnect ->
  (forall conn, pc = MLaunchWatcher conn ->
     watcher st = WAbsent /\ exists r, the_call = Stream r) ->
  (forall conn k, pc = MUpload conn k -> exists r, the_call = Stream r) ->
  invariant (set_main st pc tr').
Proof.
  intros Hinv Hb Hnl Hnc Hlw Hup. use_inv Hinv.
  pose proof (Hbefore Hb) as Hd.
  destruct (Habsent Hd) as (Hca & Hdel & Hwg & _).
  constructor; simpl; auto; try congruence.
  - intros [Hc | [conn' Hc]]; [congruence |].
    now destruct (Hlw _ Hc).
  - intros conn Hc. now destruct (Hlw _ Hc).
Qed.

Lemma invariant_after {A} (st st' : state) (m : M A) (next : A -> main_pc) :
  invariant st -> before_response (main st) = true ->
  after st m next = Some st' ->
  (forall a, fst (m (trace st)) = Returns a -> early the_call st (next a)) ->
  invariant st'.
Proof.
  intros Hinv Hb Hafter Hnext.
  destruct (after_cases _ _ _ _ Hafter)
    as (pc & tr' & -> & [(a & Ha & ->) | (p & ->)]).
  - destruct (Hnext a Ha) as (H1 & H2 & H3 & H4).
    now apply invariant_set_main.
  - apply invariant_set_main; auto; congruence.
Qed.

Lemma invariant_main_step (st st' : state) :
  invariant st -> main_step env refusal c the_call st = Some st' -> invariant st'.
Proof.
  intros Hinv. unfold main_step.
  destruct (main st) as [| conn | conn | conn k | conn | conn | ch err
                         | ch err | p] eqn:Hm; try discriminate.
  - (* MConnect *)
    intros H. apply (invariant_after _ _ _ _ Hinv) in H; auto.
    + now rewrite Hm.
    + intros [conn [e |]] _; [| destruct conn as [conn |]];
        try (repeat split; congruence).
      destruct the_call as [command | r] eqn:Hcall;
        repeat split; try congruence.
      * apply (inv_main_watcher _ _ Hinv). now left.
      * eauto.
  - (* MLaunchWatcher *)
    intros H; inversion H; subst; clear H.
    pose proof (inv_main_stream _ _ Hinv _ Hm) as Hs.
    assert (Hw : watcher st = WAbsent).
    { apply (inv_main_watcher _ _ Hinv). right. eauto. }
    assert (Hb : before_response (main st) = true) by now rewrite Hm.
    use_inv Hinv. pose proof (Hbefore Hb) as Hd.
    destruct (Habsent Hd) as (Hca & Hdel & Hwg & _).
    routine.
  - (* MSendCommand *)
    intros H. apply (invariant_after _ _ _ _ Hinv) in H; auto.
    + now rewrite Hm.
    + intros [e |] _; destruct the_call eqn:Hcall;
        repeat split; try congruence; eauto.
  - (* MUpload *)
    destruct the_call as [command | r] eqn:Hcall; [discriminate |].
    rewrite <- Hcall in Hinv |- *.
    intros H. apply (invariant_after _ _ _ _ Hinv) in H; auto.
    + now rewrite Hm.
    + intros [e |] _; repeat split; try congruence; eauto.
  - (* MSendEOF *)
    intros H. apply (invariant_after _ _ _ _ Hinv) in H; auto.
    + now rewrite Hm.
    + intros [e |] _; repeat split; congruence.
  - (* MReadResponse *)
    unfold conn_readResponse, bind, history, emit, ret.
    destruct (readResponse _ _) as [ch err].
    intros H; inversion H; subst; clear H.
    assert (Hb : before_response (main st) = true) by now rewrite Hm.
    use_inv Hinv. pose proof (Hbefore Hb) as Hd.
    destruct (Habsent Hd) as (Hca & Hdel & Hwg & _).
    routine.
    intros pending Hp. injection Hp as <-.
    rewrite Hdel. repeat split; congruence.
  - (* MLaunchCloser *)
    intros H; inversion H; subst; clear H.
    pose proof (inv_main_closer _ _ Hinv _ _ Hm) as Hca.
    use_inv Hinv.
    unfold response_of in *. rewrite Hm in *.
    routine.
    + intros pending Hp. destruct (Hdecoding _ Hp) as (H1 & _ & H3).
      repeat split; [exact H1 | congruence | exact H3].
    + eauto.
Qed.

Theorem invariant_step (l : label) (st st' : state) :
  invariant st -> step l st = Some st' -> invariant st'.
Proof.
  intros Hinv. unfold Tasks.step.
  destruct (main st); try discriminate; destruct l;
    first [ apply invariant_main_step | apply invariant_abort_send
          | apply invariant_abort_close | apply invariant_watcher_receive
          | apply invariant_watcher_close | apply invariant_decoder_deliver
          | apply invariant_decoder_complete | apply invariant_closer_close ];
    exact Hinv.
Qed.

Theorem invariant_exec (schedule : list label) (st st' : state) :
  invariant st -> exec schedule st = Some st' -> invariant st'.
Proof.
  revert st. induction schedule as [| l schedule IH]; intros st Hinv; simpl.
  - now intros [= <-].
  - destruct (step l st) as [st1 |] eqn:Hs; [| discriminate].
    apply IH. now apply (invariant_step l st).
Qed.


Lemma reachable_invariant (schedule : list label) (st : state) :
  exec schedule init = Some st -> invariant st.
Proof. apply invariant_exec, invariant_init. Qed.

(** A step of the calling goroutine leaves the shared objects alone,
    except that it starts the decoder and launches the goroutines. *)
Lemma main_step_frame (st st' : state) :
  main_step env refusal c the_call st = Some st' ->
  closes st' = closes st /\ abort_queue st' = abort_queue st
  /\ abort_closed st' = abort_closed st /\ delivered st' = delivered st
  /\ (decoder st' = decoder st \/ before_response (main st) = true)
  /\ (watcher st' = watcher st \/ exists conn, main st = MLaunchWatcher conn).
Proof.
  unfold main_step.
  destruct (main st) as [| conn | conn | conn k | conn | conn | ch err
                         | ch err | p] eqn:Hm; try discriminate;
    try (destruct the_call as [command | r] eqn:Hcall; try discriminate);
    try (intros H; apply after_cases in H as (pc & tr' & -> & _); simpl;
         now auto 10);
    try (intros H; inversion H; subst; clear H; simpl; now eauto 10).
  all: unfold conn_readResponse, bind, history, emit, ret;
    destruct (readResponse _ _) as [ch err];
    intros H; inversion H; subst; clear H; simpl; auto 10.
Qed.

Lemma step_not_complete (l : label) (st st' : state) :
  step l st = Some st' -> l <> LComplete ->
  decoder st <> DDone -> decoder st' <> DDone.
Proof.
  unfold Tasks.step. intros H Hl Hd.
  destruct (main st) eqn:Hm; try discriminate; destruct l; try congruence.
  all: try (unfold abort_send, abort_close, watcher_receive, watcher_close,
            decoder_deliver, closer_close in H;
            repeat match type of H with
                   | context [match ?x with _ => _ end] => destruct x
                   end; try discriminate;
            inversion H; subst; simpl; congruence).
  all: unfold main_step in H; rewrite Hm in H; try discriminate.
  all: try (first [destruct the_call; [discriminate |] | idtac];
            apply after_cases in H as (pc & tr' & -> & _); exact Hd).
  all: try (inversion H; subst; simpl; congruence).
  all: unfold conn_readResponse, bind, history, emit, ret in H;
    destruct (readResponse _ _) as [ch err];
    inversion H; subst; simpl; congruence.
Qed.

(** The decoder is done only through its completion step ... *)
Lemma complete_before_done (schedule : list label) :
  forall st st', exec schedule st = Some st' ->
  decoder st <> DDone -> decoder st' = DDone -> In LComplete schedule.
Proof.
  induction schedule as [| l schedule IH]; intros st st' H Hd Hd'; simpl in *.
  - congruence.
  - destruct (step l st) as [st1 |] eqn:Hs; [| discriminate].
    destruct l; try (right; apply (IH _ _ H); [| exact Hd'];
                     apply (step_not_complete _ _ _ Hs); congruence).
    now left.
Qed.

(** ... and once it is done, it stays done and delivers nothing. *)
Lemma done_is_final (schedule : list label) :
  forall st st', invariant st -> exec schedule st = Some st' ->
  decoder st = DDone -> decoder st' = DDone /\ ~ In LDeliver schedule.
Proof.
  induction schedule as [| l schedule IH]; intros st st' Hinv H Hd;
    simpl in *.
  - split; [congruence | tauto].
  - destruct (step l st) as [st1 |] eqn:Hs; [| discriminate].
    pose proof (invariant_step _ _ _ Hinv Hs) as Hinv1.
    assert (Hd1 : decoder st1 = DDone /\ l <> LDeliver).
    { unfold Tasks.step in Hs.
      destruct (main st) eqn:Hm; try discriminate; destruct l;
        try (unfold abort_send, abort_close, watcher_receive, watcher_close,
             decoder_deliver, decoder_complete, closer_close in Hs;
             rewrite ?Hd in Hs;
             repeat match type of Hs with
                    | context [match ?x with _ => _ end] => destruct x
                    end; try discriminate;
             inversion Hs; subst; simpl; split; congruence).
      all: split; [| discriminate].
      all: destruct (main_step_frame _ _ Hs) as (_ & _ & _ & _ & [Hk | Hb] & _);
        [congruence |].
      all: apply (inv_before _ _ Hinv) in Hb; congruence. }
    destruct Hd1 as [Hd1 Hl].
    destruct (IH _ _ Hinv1 H Hd1) as [Hfin Hno].
    split; [exact Hfin |]. intros [Heq | Hin]; [congruence | tauto].
Qed.


Lemma closed_by_closer (l : list goroutine) :
  l <> [] -> ~ In AbortWatcher l -> In Closer l.
Proof.
  destruct l as [| [|] l]; simpl; intros Hne Hno; [easy | now left |].
  exfalso. apply Hno. now left.
Qed.

(** [wg.Wait()] returns to the closer only when the decoder is done. *)
Lemma wait_returns_after_done (st : state) :
  invariant st -> closer st = CWaiting -> wg st = 0 -> decoder st = DDone.
Proof.
  intros Hinv Hc Hwg.
  destruct (decoder st) as [| pending |] eqn:Hd; [| | reflexivity].
  - destruct (inv_absent _ _ Hinv Hd) as [Hca _]. congruence.
  - destruct (inv_decoding _ _ Hinv _ Hd) as [Hw1 _]. congruence.
Qed.

Lemma closer_close_after_done (st st' : state) :
  invariant st -> step LCloserClose st = Some st' ->
  decoder st = DDone /\ decoder st' = DDone.
Proof.
  intros Hinv Hs.
  assert (H : closer_close st = Some st').
  { unfold Tasks.step in Hs. destruct (main st); easy. }
  unfold closer_close in H.
  destruct (closer st) eqn:Hc; try discriminate.
  destruct (wg st) eqn:Hwg; try discriminate.
  inversion H; subst; clear H. simpl.
  split; now apply wait_returns_after_done.
Qed.

(** C7.  In every interleaving of the tasks of a call, of
    [simpleCommand] as of [ScanStream]: the closer closes the connection
    only after the decoder has completed, that is after the completion
    signal is satisfied (the counter of the WaitGroup is zero), and no
    record is delivered after that close; whenever the connection is closed
    and it was not the watcher of a cancelled [ScanStream] that closed it,
    every record of the response, the final one included, has passed the
    channel that the caller holds; and in a call of [simpleCommand] nobody
    but the closer closes the connection. *)
Theorem close_follows_completion (schedule : list label) (st : state) :
  exec schedule init = Some st ->
  (forall before rest,
      schedule = (before ++ LCloserClose :: rest)%list ->
      In LComplete before /\ ~ In LDeliver rest)
  /\ (In Closer (closes st) -> decoder st = DDone /\ wg st = 0)
  /\ (closes st <> [] -> ~ In AbortWatcher (closes st) ->
      decoder st = DDone /\ wg st = 0
      /\ exists ch err,
           main st = MReturned ch err /\ delivered st = records_of ch)
  /\ (forall command, the_call = Simple command ->
      ~ In AbortWatcher (closes st)).
Proof.
  intros Hexec. pose proof (reachable_invariant _ _ Hexec) as Hinv.
  assert (Hcloser : In Closer (closes st) ->
            decoder st = DDone /\ wg st = 0).
  { intros Hin. apply (inv_closer_close _ _ Hinv) in Hin.
    pose proof (inv_closer_done _ _ Hinv Hin) as Hd.
    split; [exact Hd |]. now destruct (inv_done _ _ Hinv Hd). }
  split; [| split; [exact Hcloser | split]].
  - intros before rest ->. rewrite exec_app in Hexec.
    destruct (exec before init) as [st1 |] eqn:H1; [| discriminate].
    simpl in Hexec.
    destruct (step LCloserClose st1) as [st2 |] eqn:H2; [| discriminate].
    pose proof (reachable_invariant _ _ H1) as Hinv1.
    destruct (closer_close_after_done _ _ Hinv1 H2) as [Hd1 Hd2].
    split.
    + apply (complete_before_done before init st1 H1); [discriminate | exact Hd1].
    + pose proof (invariant_step _ _ _ Hinv1 H2) as Hinv2.
      now destruct (done_is_final rest st2 st Hinv2 Hexec Hd2).
  - intros Hne Hno.
    pose proof (closed_by_closer _ Hne Hno) as Hin.
    destruct (Hcloser Hin) as [Hd Hwg].
    split; [exact Hd |]. split; [exact Hwg |].
    apply (inv_closer_close _ _ Hinv) in Hin.
    destruct (inv_closer_launch _ _ Hinv) as (ch & err & Hm); [congruence |].
    exists ch, err. split; [exact Hm |].
    destruct (inv_done _ _ Hinv Hd) as [_ [Hall | Hw]]; [| contradiction].
    rewrite Hall. unfold response_of. now rewrite Hm.
  - intros command Hcall Hin.
    apply (inv_watcher_close _ _ Hinv) in Hin.
    destruct (inv_watcher_launch _ _ Hinv) as [r Hr]; congruence.
Qed.

End TasksInvariant.

(** * The tasks of a call: cancellation of [ScanStream] *)

Section Cancellation.

Import Tasks.

Variable env : Env.
Variable refusal : list event -> option error.
Variable c : Clamd.
Variable r : io_Reader.

Local Abbreviation step := (Tasks.step env refusal c (Stream r)).
Local Abbreviation exec := (Tasks.exec env refusal c (Stream r)).
Local Abbreviation main_step := (Tasks.main_step env refusal c (Stream r)).

Local Abbreviation fits := (Tasks.fits env r).

Lemma other_step_frame (l : label) (st st' : state) :
  step l st = Some st' -> l <> LMain ->
  main st' = main st /\ trace st' = trace st.
Proof.
  unfold Tasks.step. intros H Hl.
  destruct (main st) eqn:Hm; try discriminate; destruct l; try congruence;
    unfold abort_send, abort_close, watcher_receive, watcher_close,
      decoder_deliver, decoder_complete, closer_close in H;
    repeat match type of H with
           | context [match ?x with _ => _ end] => destruct x
           end; try discriminate;
    inversion H; subst; simpl; auto.
Qed.

Lemma step_not_cancel (l : label) (st st' : state) :
  step l st = Some st' -> l <> LCancel ->
  abort_closed st' = abort_closed st.
Proof.
  unfold Tasks.step. intros H Hl.
  destruct (main st) eqn:Hm; try discriminate; destruct l; try congruence;
    try (now apply main_step_frame in H);
    unfold abort_send, abort_close, watcher_receive, watcher_close,
      decoder_deliver, decoder_complete, closer_close in H;
    repeat match type of H with
           | context [match ?x with _ => _ end] => destruct x eqn:?
           end; try discriminate;
    inversion H; subst; simpl; auto.
Qed.

Lemma cancel_before_closed (schedule : list label) :
  forall st st', exec schedule st = Some st' ->
  abort_closed st = false -> abort_closed st' = true ->
  In LCancel schedule.
Proof.
  induction schedule as [| l schedule IH]; intros st st' H H0 H1; simpl in *.
  - congruence.
  - destruct (step l st) as [st1 |] eqn:Hs; [| discriminate].
    destruct l; try (right; apply (IH _ _ H); [| exact H1];
                     rewrite (step_not_cancel _ _ _ Hs); congruence).
    now left.
Qed.

(** What the statements of the calling goroutine return. *)
Lemma conn_sendCommand_run (e : Env) (conn : CLAMDConn) (command : string)
  (tr : list event) :
  conn_sendCommand e conn command tr
  = (Returns (sendCommand e tr command), (tr ++ [EvSendCommand command])%list).
Proof. reflexivity. Qed.

Lemma conn_sendEOF_run (e : Env) (conn : CLAMDConn) (tr : list event) :
  conn_sendEOF e conn tr
  = (Returns (sendEOF e tr), (tr ++ [EvSendEOF])%list).
Proof. reflexivity. Qed.

Lemma CHUNK_SIZE_through (closed : bool) :
  CHUNK_SIZE (through refusal closed env) = CHUNK_SIZE env.
Proof. now destruct closed. Qed.

(** The calling goroutine is never blocked: until it has returned or
    panicked it can take its next step. *)
Lemma main_step_enabled (st : state) :
  (forall ch err, main st <> MReturned ch err) ->
  (forall p, main st <> MPanicked p) ->
  exists st', main_step st = Some st'.
Proof.
  intros Hret Hpan. unfold Tasks.main_step, after.
  destruct (main st) as [| conn | conn | conn k | conn | conn | ch err
                         | ch err | p] eqn:Hm.
  - destruct (newConnection_returns env c (trace st))
      as (res & tr1 & Hc & _). rewrite Hc. eauto.
  - eauto.
  - rewrite conn_sendCommand_run. eauto.
  - rewrite upload_turn_run. cbv zeta.
    destruct (0 <? _)%nat; [destruct (_ <=? _)%nat |]; eauto.
  - rewrite conn_sendEOF_run. eauto.
  - unfold conn_readResponse, bind, history, emit, ret.
    destruct (readResponse _ _). eauto.
  - eauto.
  - now destruct (Hret ch err).
  - now destruct (Hpan p).
Qed.

(** It does not panic as long as the reader keeps its contract. *)
Lemma main_step_no_panic (st st' : state) :
  fits -> main_step st = Some st' ->
  forall p, main st' <> MPanicked p.
Proof.
  intros Hfits. unfold Tasks.main_step, after.
  destruct (main st) as [| conn | conn | conn k | conn | conn | ch err
                         | ch err | p0] eqn:Hm; try discriminate.
  - destruct (newConnection_returns env c (trace st))
      as (res & tr1 & Hc & [[conn ->] | [e ->]]); rewrite Hc;
      intros H; inversion H; subst; simpl; discriminate.
  - intros H; inversion H; subst; simpl; discriminate.
  - rewrite conn_sendCommand_run.
    destruct (sendCommand _ _ _); intros H; inversion H; subst; simpl;
      discriminate.
  - rewrite upload_turn_run. cbv zeta. rewrite CHUNK_SIZE_through.
    destruct (0 <? _)%nat.
    + destruct (Nat.leb_spec (List.length (fst (r k))) (CHUNK_SIZE env))
        as [_ | Hbig]; [| specialize (Hfits k); lia].
      destruct (sendChunk _ _ _); intros H; inversion H; subst; simpl;
        discriminate.
    + destruct (snd (r k)); intros H; inversion H; subst; simpl;
        discriminate.
  - rewrite conn_sendEOF_run.
    destruct (sendEOF _ _); intros H; inversion H; subst; simpl;
      discriminate.
  - unfold conn_readResponse, bind, history, emit, ret.
    destruct (readResponse _ _).
    intros H; inversion H; subst; simpl; discriminate.
  - intros H; inversion H; subst; simpl; discriminate.
Qed.

Lemma exec_no_panic (schedule : list label) :
  fits -> forall st st', exec schedule st = Some st' ->
  (forall p, main st <> MPanicked p) ->
  forall p, main st' <> MPanicked p.
Proof.
  intros Hfits.
  induction schedule as [| l schedule IH]; intros st st' H Hp; simpl in *.
  - now injection H as <-.
  - destruct (step l st) as [st1 |] eqn:Hs; [| discriminate].
    apply (IH _ _ H).
    destruct l;
      try (destruct (other_step_frame _ _ _ Hs) as [-> _];
           [discriminate | exact Hp]).
    unfold Tasks.step in Hs.
    destruct (main st); try discriminate;
      now apply (main_step_no_panic _ _ Hfits Hs).
Qed.

Lemma step_alive (l : label) (st : state) :
  (forall p, main st <> MPanicked p) ->
  step l st =
    match l with
    | LMain => main_step st
    | LSend b => abort_send b st
    | LCancel => abort_close st
    | LWatch => watcher_receive st
    | LWatcherClose => watcher_close st
    | LDeliver => decoder_deliver st
    | LComplete => decoder_complete st
    | LCloserClose => closer_close st
    end.
Proof.
  intros Hp. unfold Tasks.step.
  destruct (main st) eqn:Hm; try reflexivity. now destruct (Hp p).
Qed.

(** The watcher receives what was sent on [abort] and goes round its
    loop ... *)
Lemma watcher_drains (n : nat) :
  forall st, watcher st = WReceiving ->
  (forall p, main st <> MPanicked p) ->
  List.length (abort_queue st) = n ->
  exists st', exec (repeat LWatch n) st = Some st'
    /\ abort_queue st' = [] /\ watcher st' = WReceiving
    /\ main st' = main st /\ trace st' = trace st
    /\ closes st' = closes st /\ abort_closed st' = abort_closed st.
Proof.
  induction n as [| n IH]; intros st Hw Hp Hlen.
  - exists st. simpl. destruct (abort_queue st); [auto 10 | discriminate].
  - destruct (abort_queue st) as [| b queue] eqn:Hq; [discriminate |].
    cbn [repeat Tasks.exec]. rewrite (step_alive _ _ Hp).
    unfold watcher_receive. rewrite Hw, Hq.
    match goal with
    | |- context [Tasks.exec _ _ _ _ _ ?s] =>
        destruct (IH s) as (st' & He & H1 & H2 & H3 & H4 & H5 & H6)
    end; simpl; auto.
    exists st'. rewrite He. simpl in *. auto 10.
Qed.

(** ... until the channel is closed and drained; then it closes the
    connection. *)
Lemma watcher_closes_after_cancel (st : state) :
  watcher st = WReceiving -> abort_closed st = true ->
  (forall p, main st <> MPanicked p) ->
  exists st',
    exec (repeat LWatch (List.length (abort_queue st))
            ++ [LWatch; LWatcherClose])%list st = Some st'
    /\ closes st' = (closes st ++ [AbortWatcher])%list
    /\ conn_closed st' = true
    /\ main st' = main st /\ trace st' = trace st.
Proof.
  intros Hw Hab Hp.
  destruct (watcher_drains _ st Hw Hp eq_refl)
    as (st1 & He & H1 & H2 & H3 & H4 & H5 & H6).
  rewrite exec_app, He. cbn [Tasks.exec].
  assert (Hp1 : forall p, main st1 <> MPanicked p) by now rewrite H3.
  rewrite (step_alive _ _ Hp1). unfold watcher_receive.
  rewrite H2, H1, H6, Hab.
  rewrite step_alive by (simpl; exact Hp1).
  unfold watcher_close. simpl.
  eexists. split; [reflexivity |]. simpl.
  rewrite H5, H3, H4. repeat split; auto.
  unfold conn_closed. simpl. now destruct (closes st).
Qed.

(** On a closed connection the command is refused. *)
Lemma closed_sendCommand (st : state) (conn : CLAMDConn) :
  refused refusal ->
  conn_closed st = true -> main st = MSendCommand conn ->
  exists e,
    main_step st
    = Some (set_main st (MReturned None (Some e))
                     (trace st ++ [EvSendCommand "INSTREAM"])%list).
Proof.
  intros Href Hcl Hm. unfold Tasks.main_step, after. rewrite Hm, Hcl.
  rewrite conn_sendCommand_run. cbn [through closed_connection sendCommand].
  destruct (refusal (trace st)) as [e |] eqn:He; [eauto |].
  now destruct (Href (trace st)).
Qed.

Lemma closed_sendEOF (st : state) (conn : CLAMDConn) :
  refused refusal ->
  conn_closed st = true -> main st = MSendEOF conn ->
  exists e,
    main_step st
    = Some (set_main st (MReturned None (Some e))
                     (trace st ++ [EvSendEOF])%list).
Proof.
  intros Href Hcl Hm. unfold Tasks.main_step, after. rewrite Hm, Hcl.
  rewrite conn_sendEOF_run. cbn [through closed_connection sendEOF].
  destruct (refusal (trace st)) as [e |] eqn:He; [eauto |].
  now destruct (Href (trace st)).
Qed.

(** On a closed connection a turn of the upload loop goes on only when
    the reader had nothing to send and no error; otherwise the loop is
    left, because the chunk is refused or the reader failed. *)
Lemma closed_upload_turn (st : state) (conn : CLAMDConn) (k : nat) :
  refused refusal ->
  conn_closed st = true -> main st = MUpload conn k ->
  List.length (fst (r k)) <= CHUNK_SIZE env ->
  (r k = ([], None) ->
     main_step st
     = Some (set_main st (MUpload conn (S k)) (trace st ++ [EvRead k])%list))
  /\ (r k <> ([], None) ->
     exists tr', main_step st = Some (set_main st (MSendEOF conn) tr')).
Proof.
  intros Href Hcl Hm Hfit. unfold Tasks.main_step, after.
  rewrite Hm, Hcl, upload_turn_run. cbv zeta. rewrite CHUNK_SIZE_through.
  destruct (r k) as [data rerr]. cbn [fst snd] in *. split.
  - intros [= -> ->]. reflexivity.
  - intros Hne.
    destruct (Nat.leb_spec (List.length data) (CHUNK_SIZE env)); [| lia].
    destruct (0 <? List.length data)%nat eqn:Hpos.
    + cbn [through closed_connection sendChunk].
      destruct (refusal (trace st ++ [EvRead k])%list) as [e |] eqn:He;
        [eexists; reflexivity |].
      now destruct (Href (trace st ++ [EvRead k])%list).
    + destruct rerr; [eexists; reflexivity |].
      destruct data; [congruence | discriminate Hpos].
Qed.

Lemma closed_upload_ends (j : nat) :
  forall (st : state) (conn : CLAMDConn) (k : nat),
  refused refusal ->
  fits -> conn_closed st = true -> main st = MUpload conn k ->
  (forall i, i < j -> r (k + i) = ([], None)) ->
  r (k + j) <> ([], None) ->
  exists st' e,
    exec (repeat LMain (j + 2)) st = Some st'
    /\ main st' = MReturned None (Some e)
    /\ closes st' = closes st.
Proof.
  induction j as [| j IH]; intros st conn k Href Hfits Hcl Hm Hidle Hlast.
  - rewrite Nat.add_0_r in Hlast.
    destruct (closed_upload_turn st conn k Href Hcl Hm (Hfits k)) as [_ Hout].
    destruct (Hout Hlast) as [tr' Hs].
    cbn [Nat.add repeat Tasks.exec].
    rewrite step_alive by (rewrite Hm; discriminate). rewrite Hs.
    rewrite step_alive by (simpl; discriminate).
    destruct (closed_sendEOF (set_main st (MSendEOF conn) tr') conn Href)
      as [e He]; [exact Hcl | reflexivity |].
    rewrite He. do 2 eexists. split; [reflexivity |]. simpl. auto.
  - destruct (closed_upload_turn st conn k Href Hcl Hm (Hfits k)) as [Hgo _].
    cbn [Nat.add repeat Tasks.exec].
    rewrite step_alive by (rewrite Hm; discriminate).
    rewrite Hgo by (rewrite <- (Nat.add_0_r k); apply Hidle; lia).
    destruct (IH (set_main st (MUpload conn (S k)) (trace st ++ [EvRead k])%list)
                 conn (S k) Href Hfits) as (st' & e & He & Hm' & Hc');
      simpl; auto.
    + intros i Hi. replace (S (k + i)) with (k + S i) by lia.
      apply Hidle. lia.
    + now replace (S (k + j)) with (k + S j) by lia.
    + exists st', e. auto.
Qed.

(** C8.  In every interleaving of the tasks of [ScanStream], with a
    reader that keeps the contract of [io.Reader] and a connection that
    refuses writes once it is closed: the watcher closes the connection only
    after the abort channel was closed (values sent on it are received and
    dropped); from then on the watcher, given its turns, does close the
    connection, while the calling goroutine stays where it is; on the closed
    connection the command is refused, and the upload loop is left at its
    next turn that has bytes to send or a failed read, after which [sendEOF]
    is refused and [ScanStream] returns that error with no channel; and the
    calling goroutine never panics and is never blocked. *)
Theorem cancellation_closes_and_ends_upload
  (schedule : list label) (st : state) :
  exec schedule init = Some st ->
  fits ->
  refused refusal ->
  (forall before rest,
      schedule = (before ++ LWatcherClose :: rest)%list ->
      In LCancel before)
  /\ (watcher st = WReceiving -> abort_closed st = true ->
      exists st',
        exec (repeat LWatch (List.length (abort_queue st))
                ++ [LWatch; LWatcherClose])%list st = Some st'
        /\ closes st' = (closes st ++ [AbortWatcher])%list
        /\ conn_closed st' = true
        /\ main st' = main st /\ trace st' = trace st)
  /\ (conn_closed st = true ->
      forall conn, main st = MSendCommand conn ->
      exists st' e,
        exec [LMain] st = Some st'
        /\ main st' = MReturned None (Some e))
  /\ (conn_closed st = true ->
      forall conn k j, main st = MUpload conn k ->
      (forall i, i < j -> r (k + i) = ([], None)) ->
      r (k + j) <> ([], None) ->
      exists st' e,
        exec (repeat LMain (j + 2)) st = Some st'
        /\ main st' = MReturned None (Some e)
        /\ closes st' = closes st)
  /\ (forall p, main st <> MPanicked p)
  /\ ((forall ch err, main st <> MReturned ch err) ->
      exists st', step LMain st = Some st').
Proof.
  intros Hexec Hfits Href.
  assert (Hp : forall p, main st <> MPanicked p).
  { apply (exec_no_panic schedule Hfits init st Hexec). discriminate. }
  split; [| split; [| split; [| split; [| split]]]].
  - intros before rest ->. rewrite exec_app in Hexec.
    destruct (exec before init) as [st1 |] eqn:H1; [| discriminate].
    simpl in Hexec.
    destruct (step LWatcherClose st1) as [st2 |] eqn:H2; [| discriminate].
    apply (cancel_before_closed before init st1 H1); [reflexivity |].
    pose proof (reachable_invariant _ _ _ _ _ _ H1) as Hinv1.
    apply (inv_watcher_cancel _ _ Hinv1). left.
    unfold Tasks.step, watcher_close in H2.
    destruct (main st1); try discriminate;
      destruct (watcher st1); try discriminate; reflexivity.
  - intros Hw Hab. now apply watcher_closes_after_cancel.
  - intros Hcl conn Hm. cbn [Tasks.exec].
    rewrite (step_alive _ _ Hp).
    destruct (closed_sendCommand _ conn Href Hcl Hm) as [e He].
    rewrite He. do 2 eexists. split; reflexivity.
  - intros Hcl conn k j Hm Hidle Hlast.
    now apply (closed_upload_ends j st conn k).
  - exact Hp.
  - intros Hret. rewrite (step_alive _ _ Hp).
    now apply main_step_enabled.
Qed.

End Cancellation.

(** * The calling goroutine alone

    When no other task moves, the steps of the calling goroutine in the
    system of tasks are the statements of [simpleCommand] and [ScanStream]
    in their order: a run of the functions is a schedule of [LMain]
    steps. *)

Section MainAlone.

Import Tasks.

Variable env : Env.
Variable refusal : list event -> option error.
Variable c : Clamd.

Lemma exec_repeat_app (the_call : call) (n m : nat) (st : state) :
  Tasks.exec env refusal c the_call (repeat LMain (n + m)) st =
    match Tasks.exec env refusal c the_call (repeat LMain n) st with
    | Some st' => Tasks.exec env refusal c the_call (repeat LMain m) st'
    | None => None
    end.
Proof. now rewrite repeat_app, exec_app. Qed.

(** The upload loop, turn by turn. *)
Lemma upload_as_steps (r : io_Reader) (conn : CLAMDConn) (fuel : nat) :
  forall (k : nat) (st : state) (tr' : list event),
  closes st = [] -> main st = MUpload conn k ->
  upload env fuel conn r k (trace st) = (Returns tt, tr') ->
  exists n st',
    Tasks.exec env refusal c (Stream r) (repeat LMain n) st = Some st'
    /\ st' = set_main st (MSendEOF conn) tr'.
Proof.
  induction fuel as [| fuel IH]; intros k st tr' Hcl Hm Hup;
    cbn [upload] in Hup; [discriminate |].
  unfold bind in Hup.
  destruct (upload_turn env conn r k (trace st)) as [[err | p | |] tr1]
    eqn:Hturn; try discriminate.
  assert (Hstep : Tasks.step env refusal c (Stream r) LMain st
                  = Some (set_main st match err with
                                      | Some _ => MSendEOF conn
                                      | None => MUpload conn (S k)
                                      end tr1)).
  { unfold Tasks.step, main_step, after, conn_closed.
    rewrite Hm, Hcl. cbn [through]. now rewrite Hturn. }
  destruct err as [e |].
  - injection Hup as <-. exists 1, (set_main st (MSendEOF conn) tr1).
    cbn [repeat Tasks.exec]. now rewrite Hstep.
  - destruct (IH (S k) (set_main st (MUpload conn (S k)) tr1) tr')
      as (n & st' & He & ->); auto.
    exists (S n). eexists. cbn [repeat Tasks.exec]. rewrite Hstep, He.
    split; reflexivity.
Qed.

Ltac state_simpl :=
  cbn [main trace watcher decoder closer closes abort_queue abort_closed
       wg delivered set_main init conn_closed through fst snd].

Ltac main_moves :=
  cbn [repeat Tasks.exec]; unfold Tasks.step at 1; state_simpl;
  unfold main_step at 1, after; state_simpl.

Theorem ScanStream_as_schedule
  (r : io_Reader) (fuel : nat) (res : chan * option error)
  (tr : list event) :
  ScanStream env fuel c r [] = (Returns res, tr) ->
  exists n st,
    Tasks.exec env refusal c (Stream r) (repeat LMain n) init = Some st
    /\ main st = MReturned (fst res) (snd res) /\ trace st = tr
    /\ closes st = [].
Proof.
  intros Hrun.
  destruct (newConnection_returns env c [])
    as (cres & tr1 & Hc & [[conn ->] | [e ->]]).
  - rewrite (ScanStream_connected _ _ _ _ _ _ _ Hc) in Hrun.
    destruct (sendCommand env (tr1 ++ [EvGo AbortWatcher])%list "INSTREAM")
      as [e |] eqn:Hcmd.
    + injection Hrun as <- <-. exists 3. eexists.
      main_moves. rewrite Hc. main_moves. main_moves.
      rewrite conn_sendCommand_run, Hcmd. state_simpl.
      split; [reflexivity |]. state_simpl. rewrite <- !app_assoc. auto.
    + destruct (upload env fuel conn r 0
                  (tr1 ++ [EvGo AbortWatcher; EvSendCommand "INSTREAM"])%list)
        as [[[] | p | |] tr4] eqn:Hup; try discriminate.
      set (st3 := mkState (MUpload conn 0)
                    (tr1 ++ [EvGo AbortWatcher; EvSendCommand "INSTREAM"])%list
                    WReceiving DAbsent CAbsent [] [] false 0 []).
      assert (H3 : Tasks.exec env refusal c (Stream r) (repeat LMain 3) init
                   = Some st3).
      { main_moves. rewrite Hc. main_moves. main_moves.
        rewrite conn_sendCommand_run, Hcmd. state_simpl.
        unfold st3, set_main. state_simpl. now rewrite <- !app_assoc. }
      destruct (upload_as_steps r conn fuel 0 st3 tr4 eq_refl eq_refl Hup)
        as (n & st4 & H4 & ->).
      destruct (sendEOF env tr4) as [e |] eqn:Heof.
      * injection Hrun as <- <-. exists (3 + (n + 1)). eexists.
        rewrite exec_repeat_app, H3, exec_repeat_app, H4.
        main_moves. unfold st3; state_simpl.
        rewrite conn_sendEOF_run, Heof. state_simpl.
        split; [reflexivity |]. state_simpl. auto.
      * destruct (readResponse env (tr4 ++ [EvSendEOF])%list)
          as [ch err] eqn:Hrr.
        injection Hrun as <- <-. exists (3 + (n + 3)). eexists.
        rewrite exec_repeat_app, H3, exec_repeat_app, H4.
        main_moves. unfold st3; state_simpl.
        rewrite conn_sendEOF_run, Heof. state_simpl.
        main_moves.
        unfold conn_readResponse, bind, history, emit, ret. rewrite Hrr.
        main_moves.
        split; [reflexivity |]. state_simpl. rewrite <- !app_assoc. auto.
  - rewrite (ScanStream_not_connected _ _ _ _ _ _ _ _ Hc) in Hrun.
    injection Hrun as <- <-. exists 1. eexists.
    main_moves. rewrite Hc. state_simpl.
    split; [reflexivity |]. state_simpl. auto.
Qed.

Theorem simpleCommand_as_schedule
  (command : string) (res : chan * option error) (tr : list event) :
  simpleCommand env c command [] = (Returns res, tr) ->
  exists n st,
    Tasks.exec env refusal c (Simple command) (repeat LMain n) init = Some st
    /\ main st = MReturned (fst res) (snd res) /\ trace st = tr
    /\ closes st = [].
Proof.
  intros Hrun.
  destruct (newConnection_returns env c [])
    as (cres & tr1 & Hc & [[conn ->] | [e ->]]).
  - rewrite (simpleCommand_connected _ _ _ _ _ _ Hc) in Hrun.
    destruct (sendCommand env tr1 command) as [e |] eqn:Hcmd.
    + injection Hrun as <- <-. exists 2. eexists.
      main_moves. rewrite Hc. main_moves.
      rewrite conn_sendCommand_run, Hcmd. state_simpl.
      split; [reflexivity |]. state_simpl. auto.
    + destruct (readResponse env (tr1 ++ [EvSendCommand command])%list)
        as [ch err] eqn:Hrr.
      injection Hrun as <- <-. exists 4. eexists.
      main_moves. rewrite Hc. main_moves.
      rewrite conn_sendCommand_run, Hcmd. state_simpl.
      main_moves.
      unfold conn_readResponse, bind, history, emit, ret. rewrite Hrr.
      main_moves.
      split; [reflexivity |]. state_simpl. rewrite <- !app_assoc. auto.
  - rewrite (simpleCommand_not_connected _ _ _ _ _ _ _ Hc) in Hrun.
    injection Hrun as <- <-. exists 1. eexists.
    main_moves. rewrite Hc. state_simpl.
    split; [reflexivity |]. state_simpl. auto.
Qed.

End MainAlone.

(** * The interleavings on examples *)

Lemma reader_of_fits (env : Env) (blocks : list (list Byte.byte)) :
  Forall (fun data => List.length data <= CHUNK_SIZE env) blocks ->
  Tasks.fits env (reader_of blocks).
Proof.
  intros Hall k. unfold reader_of.
  destruct (nth_error blocks k) as [data |] eqn:Hk; simpl; [| lia].
  apply nth_error_In in Hk. rewrite Forall_forall in Hall. now apply Hall.
Qed.

Lemma close_follows_completion_witness :
  Tasks.exec (env_reply [plain "PONG"]) net_refusal tcp_client
    (Tasks.Simple "PING") ping_schedule Tasks.init = Some ping_state
  /\ In Tasks.LComplete
       [Tasks.LMain; Tasks.LMain; Tasks.LMain; Tasks.LMain;
        Tasks.LDeliver; Tasks.LComplete]
  /\ Tasks.decoder ping_state = Tasks.DDone
  /\ Tasks.delivered ping_state = [plain "PONG"].
Proof.
  assert (Hexec : Tasks.exec (env_reply [plain "PONG"]) net_refusal tcp_client
                    (Tasks.Simple "PING") ping_schedule Tasks.init
                  = Some ping_state) by reflexivity.
  split; [exact Hexec |].
  destruct (close_follows_completion _ _ _ _ _ _ Hexec)
    as (Hhb & _ & Hall & _).
  split.
  - apply (Hhb [Tasks.LMain; Tasks.LMain; Tasks.LMain; Tasks.LMain;
                Tasks.LDeliver; Tasks.LComplete] [] eq_refl).
  - destruct Hall as (Hd & _ & ch & err & Hm & Hdel).
    + discriminate.
    + simpl. intros [H | []]. discriminate H.
    + split; [exact Hd |]. rewrite Hdel.
      injection Hm as <- _. reflexivity.
Defined.

(** In a cancelled [ScanStream] it is the watcher that closes the
    connection, and it may do so while the decoder still holds the
    verdict. *)
Lemma cancelled_stream_closes_before_delivery :
  exists st,
    Tasks.exec (env_reply [plain "stream: OK"]) net_refusal tcp_client
      (Tasks.Stream (reader_of [[x01; x02]; [x03]]))
      (repeat Tasks.LMain 9
         ++ [Tasks.LCancel; Tasks.LWatch; Tasks.LWatcherClose])%list
      Tasks.init = Some st
    /\ Tasks.closes st = [AbortWatcher]
    /\ Tasks.decoder st = Tasks.DDecoding [plain "stream: OK"]
    /\ Tasks.delivered st = [].
Proof. eexists. split; [vm_compute; reflexivity |]. repeat split. Qed.

(** A value sent on the abort channel, [false] included, cancels nothing:
    the watcher receives it and waits again. *)
Lemma send_on_abort_does_not_cancel :
  (exists st,
     Tasks.exec (env_reply []) net_refusal tcp_client
       (Tasks.Stream (reader_of [[x01]]))
       [Tasks.LMain; Tasks.LMain; Tasks.LSend false; Tasks.LWatch]
       Tasks.init = Some st
     /\ Tasks.watcher st = Tasks.WReceiving /\ Tasks.closes st = [])
  /\ Tasks.exec (env_reply []) net_refusal tcp_client
       (Tasks.Stream (reader_of [[x01]]))
       [Tasks.LMain; Tasks.LMain; Tasks.LSend false; Tasks.LWatch;
        Tasks.LWatch] Tasks.init = None.
Proof.
  split; [eexists; split; [vm_compute; reflexivity |]; split |];
    reflexivity.
Qed.

Lemma cancellation_closes_and_ends_upload_witness :
  In Tasks.LCancel
     [Tasks.LCancel; Tasks.LMain; Tasks.LMain; Tasks.LMain; Tasks.LWatch]
  /\ Tasks.conn_closed cancelled_state = true
  /\ exists st e,
       Tasks.exec (env_reply [plain "stream: OK"]) net_refusal tcp_client
         (Tasks.Stream (reader_of [[x01; x02]; [x03]]))
         (cancelled_schedule ++ repeat Tasks.LMain 2)%list Tasks.init
       = Some st
       /\ Tasks.main st = Tasks.MReturned None (Some e).
Proof.
  assert (Hexec : Tasks.exec (env_reply [plain "stream: OK"]) net_refusal
                    tcp_client
                    (Tasks.Stream (reader_of [[x01; x02]; [x03]]))
                    cancelled_schedule Tasks.init
                  = Some cancelled_state) by reflexivity.
  destruct (cancellation_closes_and_ends_upload _ _ _ _ _ _ Hexec)
    as (Hcancel & _ & _ & Hupload & _ & _).
  - apply reader_of_fits.
    repeat (apply Forall_cons; [simpl; lia |]). apply Forall_nil.
  - intros h. discriminate.
  - split.
    + apply (Hcancel [Tasks.LCancel; Tasks.LMain; Tasks.LMain; Tasks.LMain;
                      Tasks.LWatch] [] eq_refl).
    + split; [reflexivity |].
      destruct (Hupload eq_refl (TcpConn "127.0.0.1:3310") 0 0 eq_refl)
        as (st & e & Hrun & Hmain & _).
      * intros i Hi. lia.
      * discriminate.
      * exists st, e. split; [| exact Hmain].
        rewrite exec_app, Hexec. exact Hrun.
Defined.
(** * Further properties *)

(** ** [Stats]: which replies it accepts, and what it keeps *)

(** The six prefixes start with six different letters: a raw text has at
    most one of them, so that the order of the tests in [Stats] does not
    matter. *)
Ltac prefix_cases raw :=
  unfold strings.HasPrefix in *;
  destruct raw as [| ch rest]; cbn [String.prefix] in *;
  [ | repeat match goal with
             | |- context [ascii_dec ?a ch] =>
                 destruct (ascii_dec a ch) as [<- |]
             | H : context [ascii_dec ?a ch] |- _ =>
                 destruct (ascii_dec a ch) as [<- |]
             end ].

Lemma Stats_record_fields (stats stats' : clamd.Stats) (s : ScanResult) :
  Stats_record stats s = Returns (inl stats') ->
  Pools stats'
  = (if strings.HasPrefix (Raw s) "POOLS" then pools_value (Raw s)
     else Pools stats)
  /\ State stats'
     = (if strings.HasPrefix (Raw s) "STATE" then Raw s else State stats)
  /\ Threads stats'
     = (if strings.HasPrefix (Raw s) "THREADS" then Raw s else Threads stats)
  /\ Queue stats'
     = (if strings.HasPrefix (Raw s) "QUEUE" then Raw s else Queue stats)
  /\ Memstats stats'
     = (if strings.HasPrefix (Raw s) "MEMSTATS" then Raw s
        else Memstats stats).
Proof.
  unfold Stats_record, slice_from, pools_value.
  destruct (6 <=? String.length (Raw s))%nat eqn:Hlen.
  - intros H. prefix_cases (Raw s); simpl in H; try discriminate;
      repeat match type of H with
             | context [String.prefix ?a ?b] => destruct (String.prefix a b)
             end;
      try discriminate; injection H as <-; simpl; auto.
  - intros H. prefix_cases (Raw s); simpl in H; try discriminate;
      repeat match type of H with
             | context [String.prefix ?a ?b] => destruct (String.prefix a b)
             end;
      try discriminate; injection H as <-; simpl; auto.
Qed.

Lemma Stats_record_outcome (stats : clamd.Stats) (s : ScanResult) :
  if passes (Raw s)
  then exists stats', Stats_record stats s = Returns (inl stats')
  else if recognized (Raw s)
       then Stats_record stats s
            = Panics (SliceBounds 6 (String.length (Raw s)))
       else Stats_record stats s = Returns (inr (unknown_response s)).
Proof.
  destruct (recognized (Raw s)) eqn:Hrec.
  - unfold passes. rewrite Hrec. cbn [andb].
    unfold Stats_record, slice_from.
    destruct (strings.HasPrefix (Raw s) "POOLS") eqn:Hp; cbn [negb orb].
    + destruct (6 <=? String.length (Raw s))%nat; [eauto | reflexivity].
    + unfold recognized in Hrec. rewrite Hp in Hrec. cbn [orb] in Hrec.
      repeat match goal with
             | |- context [if strings.HasPrefix ?a ?b then _ else _] =>
                 destruct (strings.HasPrefix a b); [eauto |];
                 cbn [orb] in Hrec
             end.
      discriminate.
  - unfold passes. rewrite Hrec. cbn [andb].
    now apply Stats_record_unknown.
Qed.

Lemma Stats_range_passes (rs : list ScanResult) :
  forall stats, forallb (fun s => passes (Raw s)) rs = true ->
  exists stats', Stats_range stats rs = Returns (Some stats', None).
Proof.
  induction rs as [| s rs IH]; intros stats H; cbn [forallb] in H.
  - now exists stats.
  - apply andb_prop in H as [Hs Hrs].
    pose proof (Stats_record_outcome stats s) as Ho. rewrite Hs in Ho.
    destruct Ho as [stats1 Ho]. cbn [Stats_range]. rewrite Ho. now apply IH.
Qed.

(** X1.  [Stats] returns the statistics exactly when every record of the
    reply has a known prefix and none is too short for the slice of the
    POOLS case.  Otherwise the first record that does not pass decides: one
    of a known prefix (a POOLS record of fewer than six bytes) makes the loop
    panic, one of no known prefix makes it return the error that names it;
    the records after it are not looked at. *)
Theorem Stats_accepts_iff (stats : clamd.Stats) (rs : list ScanResult) :
  ((exists stats', Stats_range stats rs = Returns (Some stats', None))
   <-> forallb (fun s => passes (Raw s)) rs = true)
  /\ (forall before s rest,
        rs = (before ++ s :: rest)%list ->
        forallb (fun s => passes (Raw s)) before = true ->
        passes (Raw s) = false ->
        Stats_range stats rs
        = (if recognized (Raw s)
           then Panics (SliceBounds 6 (String.length (Raw s)))
           else Returns (None, Some (unknown_response s)))).
Proof.
  assert (Hfirst : forall before s rest,
            forallb (fun s => passes (Raw s)) before = true ->
            passes (Raw s) = false ->
            Stats_range stats (before ++ s :: rest)%list
            = (if recognized (Raw s)
               then Panics (SliceBounds 6 (String.length (Raw s)))
               else Returns (None, Some (unknown_response s)))).
  { intros before s rest Hb Hs.
    destruct (Stats_range_passes before stats Hb) as [stats1 H1].
    rewrite (Stats_range_app _ _ _ _ H1). cbn [Stats_range].
    pose proof (Stats_record_outcome stats1 s) as Ho. rewrite Hs in Ho.
    destruct (recognized (Raw s)); now rewrite Ho. }
  split; [split |].
  - intros [stats' H].
    destruct (forallb (fun s => passes (Raw s)) rs) eqn:Hall; [reflexivity |].
    exfalso. revert stats Hfirst H.
    induction rs as [| s rs IH]; intros stats Hfirst H; [discriminate |].
    cbn [forallb] in Hall.
    destruct (passes (Raw s)) eqn:Hs.
    + cbn [andb] in Hall. cbn [Stats_range] in H.
      pose proof (Stats_record_outcome stats s) as Ho. rewrite Hs in Ho.
      destruct Ho as [stats1 Ho]. rewrite Ho in H.
      apply (IH Hall stats1); [| exact H].
      intros before s0 rest Hb Hs0.
      specialize (Hfirst (s :: before) s0 rest).
      cbn [forallb app Stats_range] in Hfirst. rewrite Hs, Ho in Hfirst.
      now apply Hfirst.
    + specialize (Hfirst [] s rs eq_refl Hs). cbn [app] in Hfirst.
      rewrite Hfirst in H. destruct (recognized (Raw s)); discriminate.
  - apply Stats_range_passes.
  - intros before s rest ->. apply Hfirst.
Qed.

(** X2.  A record that starts with END is no terminator: it is skipped
    wherever it stands, and the records after it count like the others.
    Taking it out of the reply changes nothing in what [Stats] does. *)
Theorem Stats_skips_END
  (stats : clamd.Stats) (before rest : list ScanResult) (e : ScanResult) :
  strings.HasPrefix (Raw e) "END" = true ->
  Stats_range stats (before ++ e :: rest)%list
  = Stats_range stats (before ++ rest)%list.
Proof.
  intros He. revert stats.
  induction before as [| s before IH]; intros stats; cbn [app Stats_range].
  - now rewrite (Stats_record_END stats e He).
  - destruct (Stats_record stats s) as [[stats1 | err] | p | |];
      try reflexivity.
    apply IH.
Qed.

Lemma last_of_app (prefix : string) (value : string -> string)
  (l1 l2 : list ScanResult) (default : string) :
  last_of prefix value (l1 ++ l2)%list default
  = last_of prefix value l2 (last_of prefix value l1 default).
Proof.
  revert default. induction l1 as [| s l1 IH]; intros default; simpl;
    [reflexivity | apply IH].
Qed.

(** X3.  When [Stats] returns the statistics, each field holds what the
    last record of its prefix left there and is untouched when the reply has
    no such record: [State], [Threads], [Queue] and [Memstats] the whole raw
    text of that record, [Pools] its text from byte 6 on without the spaces
    at both ends.  Earlier records of the same prefix are overwritten. *)
Theorem Stats_keeps_last_records
  (stats stats' : clamd.Stats) (rs : list ScanResult) :
  Stats_range stats rs = Returns (Some stats', None) ->
  Pools stats' = last_of "POOLS" pools_value rs (Pools stats)
  /\ State stats' = last_of "STATE" verbatim rs (State stats)
  /\ Threads stats' = last_of "THREADS" verbatim rs (Threads stats)
  /\ Queue stats' = last_of "QUEUE" verbatim rs (Queue stats)
  /\ Memstats stats' = last_of "MEMSTATS" verbatim rs (Memstats stats).
Proof.
  revert stats. induction rs as [| s rs IH]; intros stats H;
    cbn [Stats_range last_of] in *.
  - injection H as <-. auto.
  - destruct (Stats_record stats s) as [[stats1 | err] | p | |] eqn:Hs;
      try discriminate.
    destruct (Stats_record_fields _ _ _ Hs) as (H1 & H2 & H3 & H4 & H5).
    destruct (IH _ H) as (I1 & I2 & I3 & I4 & I5).
    unfold verbatim in *.
    rewrite I1, I2, I3, I4, I5, H1, H2, H3, H4, H5. auto.
Qed.

(** ** The operations end to end *)

(** [simpleCommand] in terms of the environment. *)
Lemma simpleCommand_cases
  (env : Env) (c : Clamd) (command : string) (tr : list event) :
  (exists conn e tr1,
      newConnection env c tr = (Returns (conn, Some e), tr1)
      /\ simpleCommand env c command tr = (Returns (None, Some e), tr1))
  \/ (exists conn tr1 e,
      newConnection env c tr = (Returns (Some conn, None), tr1)
      /\ sendCommand env tr1 command = Some e
      /\ simpleCommand env c command tr
         = (Returns (None, Some e), (tr1 ++ [EvSendCommand command])%list))
  \/ (exists conn tr1,
      newConnection env c tr = (Returns (Some conn, None), tr1)
      /\ sendCommand env tr1 command = None
      /\ simpleCommand env c command tr
         = (Returns (readResponse env (tr1 ++ [EvSendCommand command])%list),
            (tr1 ++ [EvSendCommand command; EvReadResponse; EvGo Closer])%list)).
Proof.
  destruct (newConnection_returns env c tr)
    as (res & tr1 & Hc & [[conn ->] | [e ->]]).
  - pose proof (simpleCommand_connected _ _ command _ _ _ Hc) as H.
    destruct (sendCommand env tr1 command) as [e |] eqn:Hs.
    + right; left. exists conn, tr1, e. auto.
    + right; right. exists conn, tr1. auto.
  - left. exists None, e, tr1. split; [exact Hc |].
    now apply (simpleCommand_not_connected _ _ _ _ _ _ _ Hc).
Qed.

(** What [simpleCommand] returns when the exchange went through, and that
    it hands back a nil channel with an error when it did not. *)
Lemma simpleCommand_answered
  (env : Env) (c : Clamd) (command : string) (tr : list event) :
  (exists res tr', answered env c command tr res
      /\ simpleCommand env c command tr = (Returns res, tr'))
  \/ (exists e tr', (forall res, ~ answered env c command tr res)
      /\ simpleCommand env c command tr = (Returns (None, Some e), tr')).
Proof.
  destruct (simpleCommand_cases env c command tr)
    as [(conn & e & tr1 & Hc & Hs) | [(conn & tr1 & e & Hc & Hsend & Hs)
       | (conn & tr1 & Hc & Hsend & Hs)]].
  - right. exists e, tr1. split; [| exact Hs].
    intros res (conn' & tr1' & Hc' & _). rewrite Hc in Hc'. discriminate.
  - right. exists e. eexists. split; [| exact Hs].
    intros res (conn' & tr1' & Hc' & Hs' & _).
    rewrite Hc in Hc'. injection Hc' as <- <-. congruence.
  - left. do 2 eexists. split; [| exact Hs]. exists conn, tr1. auto.
Qed.

Lemma answered_unique
  (env : Env) (c : Clamd) (command : string) (tr : list event)
  (res res' : chan * option error) :
  answered env c command tr res -> answered env c command tr res' ->
  res = res'.
Proof.
  intros (conn & tr1 & Hc & _ & Hr) (conn' & tr1' & Hc' & _ & Hr').
  rewrite Hc in Hc'. injection Hc' as <- <-. congruence.
Qed.



(** X5.  [Shutdown] always returns, whatever the daemon replies: it never
    receives from the channel, so it neither blocks nor panics.  What it
    returns is the error of the connection, of the send or of
    [readResponse]; it is nil exactly when the connection was made, the
    command SHUTDOWN was sent and [readResponse] returned no error. *)
Theorem Shutdown_returns (env : Env) (c : Clamd) (tr : list event) :
  exists err,
    fst (Shutdown env c tr) = Returns err
    /\ (err = None <-> exists ch, answered env c "SHUTDOWN" tr (ch, None)).
Proof.
  destruct (simpleCommand_answered env c "SHUTDOWN" tr)
    as [([ch err] & tr' & Ha & Hs) | (e & tr' & Hna & Hs)];
    unfold Shutdown, bind; rewrite Hs.
  - exists err. split; [reflexivity |]. split.
    + intros ->. now exists ch.
    + intros [ch' Ha']. pose proof (answered_unique _ _ _ _ _ _ Ha Ha').
      congruence.
  - exists (Some e). split; [reflexivity |]. split; [discriminate |].
    intros [ch Ha]. now apply Hna in Ha.
Qed.



(** X7.  When the connection cannot be made, nothing is sent and no
    goroutine is launched; [Ping], [Stats], [Reload], [Shutdown] and
    [ScanStream] return the error of [newConnection] as it is, while
    [Version] and the scans of files block and never report it. *)
Theorem failed_connection_reported_or_blocked
  (env : Env) (c : Clamd) (op : operation) (tr tr1 : list event)
  (conn : option CLAMDConn) (e : error) :
  newConnection env c tr = (Returns (conn, Some e), tr1) ->
  reported env c op tr
  = (if receives_first op then Blocks else Returns (Some e))
  /\ trace_of env c op tr = tr1.
Proof.
  intros Hc.
  pose proof (fun command =>
                simpleCommand_not_connected _ _ command _ _ _ _ Hc) as Hs.
  destruct op as [| | | | | v path | fuel r];
    cbn [reported trace_of receives_first];
    rewrite ?scan_operation_unfold;
    unfold Ping, Version, Stats, Reload, Shutdown, bind;
    rewrite ?Hs, ?(ScanStream_not_connected _ _ _ _ _ _ _ _ Hc);
    split; reflexivity.
Qed.

(** X8.  When the connection is made and the send of the command fails,
    the response is never read and no closer is launched, so that nothing
    closes the connection; [Ping], [Stats], [Reload], [Shutdown] and
    [ScanStream] return the error of [sendCommand] as it is, while
    [Version] and the scans of files block and never report it. *)
Theorem failed_send_reported_or_blocked
  (env : Env) (c : Clamd) (op : operation) (tr tr1 : list event)
  (conn : CLAMDConn) (e : error) :
  newConnection env c tr = (Returns (Some conn, None), tr1) ->
  sendCommand env (at_send op tr1) (command_of op) = Some e ->
  reported env c op tr
  = (if receives_first op then Blocks else Returns (Some e))
  /\ trace_of env c op tr
     = (at_send op tr1 ++ [EvSendCommand (command_of op)])%list.
Proof.
  intros Hc Hsend.
  pose proof (fun command =>
                simpleCommand_connected _ _ command _ _ _ Hc) as Hs.
  destruct op as [| | | | | v path | fuel r];
    cbn [reported trace_of receives_first command_of at_send] in *;
    rewrite ?scan_operation_unfold;
    unfold Ping, Version, Stats, Reload, Shutdown, bind;
    rewrite ?Hs, ?(ScanStream_connected _ _ _ _ _ _ _ Hc), ?Hsend;
    rewrite <- ?app_assoc; split; reflexivity.
Qed.

(** ** One exchange for each call *)

Lemma count_app (p : event -> bool) (l1 l2 : list event) :
  count p (l1 ++ l2)%list = count p l1 + count p l2.
Proof. unfold count. now rewrite filter_app, length_app. Qed.

Lemma newConnection_events (env : Env) (c : Clamd) (tr : list event) :
  exists evs, snd (newConnection env c tr) = (tr ++ evs)%list
    /\ count is_dial evs <= 1 /\ commands evs = []
    /\ count is_response evs = 0
    /\ forall g, count (is_launch g) evs = 0.
Proof.
  unfold newConnection, bind, emit, ret.
  destruct (url_Parse env (address c)) as [u | e].
  - destruct (String.eqb (url.Scheme u) "tcp");
      [| destruct (String.eqb (url.Scheme u) "unix")];
      rewrite ?dialTcp_run, ?dialUnix_run; cbn [snd]; rewrite <- app_assoc;
      eexists; (split; [reflexivity |]); cbn; auto.
  - cbn [snd]. eexists; (split; [reflexivity |]); cbn; auto.
Qed.

Lemma upload_events_only (env : Env) (conn : CLAMDConn) (r : io_Reader)
  (fuel k : nat) (tr : list event) :
  exists evs, snd (upload env fuel conn r k tr) = (tr ++ evs)%list
    /\ forallb is_upload evs = true.
Proof.
  revert k tr. induction fuel as [| fuel IH]; intros k tr.
  - exists []. cbn. now rewrite app_nil_r.
  - cbn [upload]. unfold bind. rewrite upload_turn_run. cbv zeta.
    destruct (0 <? List.length (fst (r k)))%nat.
    + destruct (List.length (fst (r k)) <=? CHUNK_SIZE env)%nat.
      * destruct (sendChunk env _ _).
        -- exists [EvRead k; EvSendChunk (fst (r k))]. auto.
        -- destruct (IH (S k) (tr ++ [EvRead k; EvSendChunk (fst (r k))])%list)
             as (evs & Htr & Hall).
           exists ([EvRead k; EvSendChunk (fst (r k))] ++ evs)%list.
           rewrite Htr, <- app_assoc. split; [reflexivity |].
           cbn. exact Hall.
      * exists [EvRead k]. auto.
    + destruct (snd (r k)).
      * exists [EvRead k]. auto.
      * destruct (IH (S k) (tr ++ [EvRead k])%list) as (evs & Htr & Hall).
        exists ([EvRead k] ++ evs)%list.
        rewrite Htr, <- app_assoc. split; [reflexivity |]. cbn. exact Hall.
Qed.

Lemma upload_counts (evs : list event) :
  forallb is_upload evs = true ->
  count is_dial evs = 0 /\ commands evs = []
  /\ count is_response evs = 0 /\ forall g, count (is_launch g) evs = 0.
Proof.
  induction evs as [| ev evs IH]; cbn [forallb]; intros H.
  - cbn. auto.
  - apply andb_prop in H as [Hev Hall].
    destruct (IH Hall) as (H1 & H2 & H3 & H4).
    destruct ev; try discriminate; cbn in *; auto.
Qed.

Ltac count_events :=
  repeat rewrite ?count_app, ?commands_app;
  repeat match goal with
         | H : count _ _ = 0 |- _ => rewrite H
         | H : forall g, count (is_launch g) _ = 0 |- _ => rewrite !H
         | H : commands _ = [] |- _ => rewrite H
         end;
  cbn.


(** ** [ScanStream]: what is uploaded and what is reported *)

Lemma frames_upload_events (r : io_Reader) (j : nat) :
  forall k, frames (upload_events r k j)
            = map Some (filter nonempty (blocks r k j)).
Proof.
  unfold blocks.
  induction j as [| j IH]; intros k; cbn [upload_events seq map filter frames];
    [reflexivity |].
  rewrite frames_app, IH.
  destruct (nonempty (fst (r k))); reflexivity.
Qed.

Lemma concat_nonempty (l : list (list Byte.byte)) :
  concat (filter nonempty l) = concat l.
Proof.
  induction l as [| [| b data] l IH]; cbn; [reflexivity | exact IH |].
  now rewrite IH.
Qed.

(** With a connection that takes every chunk, the loop runs until the
    reader yields no bytes and an error. *)
Lemma upload_run (env : Env) (conn : CLAMDConn) (r : io_Reader) (j : nat) :
  forall (fuel k : nat) (tr : list event) (e : error),
    (forall h data, sendChunk env h data = None) ->
    Tasks.fits env r ->
    r (k + j) = ([], Some e) ->
    (forall i, i < j -> fst (r (k + i)) <> [] \/ snd (r (k + i)) = None) ->
    j < fuel ->
    upload env fuel conn r k tr
    = (Returns tt, (tr ++ upload_events r k j)%list).
Proof.
  induction j as [| j IH]; intros fuel k tr e Hsend Hfits Hend Hgo Hlt;
    (destruct fuel as [| fuel]; [lia |]);
    cbn [upload upload_events]; unfold bind; rewrite upload_turn_run; cbv zeta.
  - rewrite Nat.add_0_r in Hend. rewrite Hend. reflexivity.
  - fold (nonempty (fst (r k))).
    assert (Hnext : forall tr',
              upload env fuel conn r (S k) tr'
              = (Returns tt, (tr' ++ upload_events r (S k) j)%list)).
    { intros tr'. apply (IH fuel (S k) tr' e); auto; [| | lia].
      - now replace (S k + j) with (k + S j) by lia.
      - intros i Hi. replace (S k + i) with (k + S i) by lia.
        apply Hgo. lia. }
    destruct (nonempty (fst (r k))) eqn:Hne.
    + destruct (Nat.leb_spec (List.length (fst (r k))) (CHUNK_SIZE env))
        as [_ | Hbig]; [| specialize (Hfits k); lia].
      rewrite Hsend, Hnext, <- app_assoc. reflexivity.
    + destruct (Hgo 0 ltac:(lia)) as [Hdata | Herr];
        rewrite Nat.add_0_r in *.
      * unfold nonempty in Hne. destruct (fst (r k)); [easy | discriminate].
      * rewrite Herr, Hnext, <- app_assoc. reflexivity.
Qed.

(** X10.  With a connection that takes the command and every chunk, and a
    reader that keeps the contract of [io.Reader] and whose [j]-th [Read] is
    the first to yield no bytes and an error, [ScanStream] sends what it
    read: the chunks are the non-empty blocks of the [Read]s before the
    [j]-th, in order and none longer than [CHUNK_SIZE], they add up to the
    bytes read, and the terminator follows.  An error that a [Read] returns
    together with bytes is overwritten by the result of [sendChunk] and does
    not end the loop. *)
Theorem ScanStream_uploads_what_it_reads
  (env : Env) (fuel : nat) (c : Clamd) (r : io_Reader) (tr tr1 : list event)
  (conn : CLAMDConn) (j : nat) (e : error) :
  newConnection env c tr = (Returns (Some conn, None), tr1) ->
  sendCommand env (tr1 ++ [EvGo AbortWatcher])%list "INSTREAM" = None ->
  (forall h data, sendChunk env h data = None) ->
  Tasks.fits env r ->
  r j = ([], Some e) ->
  (forall i, i < j -> fst (r i) <> [] \/ snd (r i) = None) ->
  j < fuel ->
  let chunks := filter nonempty (blocks r 0 j) in
  frames (snd (ScanStream env fuel c r tr))
  = (frames tr ++ map Some chunks ++ [None])%list
  /\ concat chunks = concat (blocks r 0 j)
  /\ Forall (fun data => 0 < List.length data <= CHUNK_SIZE env) chunks
  /\ exists res, fst (ScanStream env fuel c r tr) = Returns res.
Proof.
  intros Hc Hcmd Hsend Hfits Hend Hgo Hlt chunks. subst chunks.
  destruct (newConnection_trace env c tr) as (evs & Htr & _ & Hfr & _).
  rewrite Hc in Htr. cbn [snd] in Htr. subst tr1.
  rewrite (ScanStream_connected _ _ _ _ _ _ _ Hc), Hcmd.
  rewrite (upload_run env conn r j fuel 0 _ e); auto.
  split; [| split; [apply concat_nonempty | split]].
  - destruct (sendEOF env _); cbn [snd];
      rewrite !frames_app, Hfr, frames_upload_events; cbn;
      now rewrite !app_nil_r, <- app_assoc.
  - apply Forall_forall. intros data Hin.
    apply filter_In in Hin as [Hin Hne].
    unfold blocks in Hin. apply in_map_iff in Hin as (i & <- & _).
    unfold nonempty in Hne. apply Nat.ltb_lt in Hne.
    split; [exact Hne | apply Hfits].
  - destruct (sendEOF env _); eexists; reflexivity.
Qed.

(** X11.  [ScanStream] returns an error only when the connection failed,
    when the send of INSTREAM failed or when the send of the terminator
    failed; then the channel is nil, [readResponse] was not called and no
    closer was launched.  When it returns no error, the channel is the one
    that [readResponse] gave after the terminator, whatever error came
    with it: the errors of [Read], of [sendChunk] and of [readResponse]
    are never returned. *)
Theorem ScanStream_reported_errors
  (env : Env) (fuel : nat) (c : Clamd) (r : io_Reader) (tr : list event) :
  (forall ch e,
      fst (ScanStream env fuel c r tr) = Returns (ch, Some e) ->
      ch = None
      /\ ((exists conn tr1,
              newConnection env c tr = (Returns (conn, Some e), tr1))
          \/ (exists h, sendCommand env h "INSTREAM" = Some e)
          \/ (exists h, sendEOF env h = Some e))
      /\ exists evs,
           snd (ScanStream env fuel c r tr) = (tr ++ evs)%list
           /\ count is_response evs = 0
           /\ count (is_launch Closer) evs = 0)
  /\ (forall ch,
        fst (ScanStream env fuel c r tr) = Returns (ch, None) ->
        exists tr4 err,
          sendEOF env tr4 = None
          /\ readResponse env (tr4 ++ [EvSendEOF])%list = (ch, err)
          /\ snd (ScanStream env fuel c r tr)
             = (tr4 ++ [EvSendEOF; EvReadResponse; EvGo Closer])%list).
Proof.
  destruct (newConnection_events env c tr) as (evs0 & Htr & Hd & Hc0 & Hr & Hg).
  destruct (newConnection_returns env c tr)
    as (res & tr1 & Hc & [[conn ->] | [e0 ->]]);
    rewrite Hc in Htr; cbn [snd] in Htr; subst tr1.
  - rewrite (ScanStream_connected _ _ _ _ _ _ _ Hc).
    destruct (sendCommand env _ "INSTREAM") as [e1 |] eqn:Hcmd.
    + split; [| discriminate].
      intros ch e [= <- <-]. split; [reflexivity |]. split; [eauto |].
      cbn [snd]. rewrite <- app_assoc. eexists. split; [reflexivity |].
      count_events. auto.
    + destruct (upload_events_only env conn r fuel 0
                  ((tr ++ evs0) ++
                   [EvGo AbortWatcher; EvSendCommand "INSTREAM"])%list)
        as (uevs & Hu & Hall).
      destruct (upload_counts _ Hall) as (U1 & U2 & U3 & U4).
      destruct (upload env fuel conn r 0 _) as [[[] | p | |] tr4];
        cbn [snd] in Hu; subst tr4; try (split; intros; discriminate).
      destruct (sendEOF env _) as [e2 |] eqn:Heof.
      * split; [| discriminate].
        intros ch e [= <- <-]. split; [reflexivity |].
        split; [right; right; eauto |].
        cbn [snd]. rewrite <- !app_assoc. eexists. split; [reflexivity |].
        count_events. auto.
      * split; [discriminate |].
        intros ch Hch. cbn [fst] in Hch. injection Hch as <-.
        do 2 eexists. split; [exact Heof |].
        split; [apply surjective_pairing | reflexivity].
  - rewrite (ScanStream_not_connected _ _ _ _ _ _ _ _ Hc).
    split; [| discriminate].
    intros ch e [= <- <-]. split; [reflexivity |]. split; [eauto |].
    exists evs0. cbn [snd]. auto.
Qed.

Lemma upload_spins (env : Env) (conn : CLAMDConn) (r : io_Reader) :
  (forall h data, sendChunk env h data = None) ->
  Tasks.fits env r ->
  (forall k, fst (r k) = [] -> snd (r k) = None) ->
  forall (fuel k : nat) (tr : list event),
  exists evs,
    upload env fuel conn r k tr = (OutOfFuel, (tr ++ evs)%list)
    /\ forallb is_upload evs = true.
Proof.
  intros Hsend Hfits Hgo.
  induction fuel as [| fuel IH]; intros k tr.
  - exists []. cbn. now rewrite app_nil_r.
  - cbn [upload]. unfold bind. rewrite upload_turn_run. cbv zeta.
    destruct (0 <? List.length (fst (r k)))%nat eqn:Hpos.
    + destruct (Nat.leb_spec (List.length (fst (r k))) (CHUNK_SIZE env))
        as [_ | Hbig]; [| specialize (Hfits k); lia].
      rewrite Hsend.
      destruct (IH (S k) (tr ++ [EvRead k; EvSendChunk (fst (r k))])%list)
        as (evs & -> & Hall).
      exists ([EvRead k; EvSendChunk (fst (r k))] ++ evs)%list.
      now rewrite <- app_assoc.
    + rewrite Hgo by (destruct (fst (r k)); [reflexivity | discriminate]).
      destruct (IH (S k) (tr ++ [EvRead k])%list) as (evs & -> & Hall).
      exists ([EvRead k] ++ evs)%list. now rewrite <- app_assoc.
Qed.

Lemma upload_no_terminator (evs : list event) :
  forallb is_upload evs = true -> ~ In None (frames evs).
Proof.
  induction evs as [| ev evs IH]; cbn [forallb]; intros H; [easy |].
  apply andb_prop in H as [Hev Hall].
  destruct ev; try discriminate; cbn; [now apply IH |].
  intros [Hd | Hin]; [discriminate | now apply IH].
Qed.

(** X12.  Only an error ends the upload loop of [ScanStream], and an error
    of [Read] ends it only when it comes with no bytes.  With a connection
    that takes the command and every chunk, a reader that keeps the
    contract of [io.Reader] and never yields zero bytes together with an
    error keeps the loop running: whatever the number of turns allowed, the
    loop has not been left and the terminator has not been sent. *)
Theorem upload_runs_until_an_error
  (env : Env) (fuel : nat) (c : Clamd) (r : io_Reader) (tr tr1 : list event)
  (conn : CLAMDConn) :
  newConnection env c tr = (Returns (Some conn, None), tr1) ->
  sendCommand env (tr1 ++ [EvGo AbortWatcher])%list "INSTREAM" = None ->
  (forall h data, sendChunk env h data = None) ->
  Tasks.fits env r ->
  (forall k, fst (r k) = [] -> snd (r k) = None) ->
  fst (ScanStream env fuel c r tr) = OutOfFuel
  /\ (~ In None (frames tr) ->
      ~ In None (frames (snd (ScanStream env fuel c r tr)))).
Proof.
  intros Hc Hcmd Hsend Hfits Hgo.
  destruct (newConnection_trace env c tr) as (evs & Htr & _ & Hfr & _).
  rewrite Hc in Htr. cbn [snd] in Htr. subst tr1.
  rewrite (ScanStream_connected _ _ _ _ _ _ _ Hc), Hcmd.
  destruct (upload_spins env conn r Hsend Hfits Hgo fuel 0
              ((tr ++ evs) ++
               [EvGo AbortWatcher; EvSendCommand "INSTREAM"])%list)
    as (uevs & -> & Hall).
  split; [reflexivity |].
  intros Hno. cbn [snd]. rewrite !frames_app, Hfr. cbn [frames].
  rewrite !app_nil_r. intros Hin. apply in_app_or in Hin as [Hin | Hin].
  - now apply Hno.
  - now apply (upload_no_terminator uevs Hall).
Qed.

(** ** The order of an exchange *)

Lemma newConnection_shape (env : Env) (c : Clamd) (tr : list event) :
  (exists e,
      newConnection env c tr
      = (Returns (None, Some e), (tr ++ [EvParse (address c)])%list))
  \/ (exists d res,
        is_dial d = true
        /\ newConnection env c tr
           = (Returns res, (tr ++ [EvParse (address c); d])%list)
        /\ ((exists conn, res = (Some conn, None))
            \/ (exists e, res = (None, Some e)))).
Proof.
  unfold newConnection, bind, emit, ret.
  destruct (url_Parse env (address c)) as [u | e]; [| left; eauto].
  right.
  destruct (String.eqb (url.Scheme u) "tcp");
    [| destruct (String.eqb (url.Scheme u) "unix")];
    rewrite ?dialTcp_run, ?dialUnix_run, <- app_assoc; cbn [app].
  - exists (EvDialTcp (url.Host u)). eexists. split; [reflexivity |].
    split; [reflexivity |]. destruct (newCLAMDTcpConn env _ _); eauto.
  - exists (EvDialUnix (url.Path u)). eexists. split; [reflexivity |].
    split; [reflexivity |]. destruct (newCLAMDUnixConn env _ _); eauto.
  - exists (EvDialUnix (address c)). eexists. split; [reflexivity |].
    split; [reflexivity |]. destruct (newCLAMDUnixConn env _ _); eauto.
Qed.

(** A turn of the upload loop adds its events, never blocks, and panics
    only on a [Read] that claims more bytes than the buffer holds. *)
Lemma upload_turn_events (env : Env) (conn : CLAMDConn) (r : io_Reader)
  (k : nat) (tr : list event) :
  snd (upload_turn env conn r k tr) = (tr ++ turn_events env r k)%list
  /\ fst (upload_turn env conn r k tr) <> Blocks
  /\ forall p, fst (upload_turn env conn r k tr) = Panics p ->
     CHUNK_SIZE env < List.length (fst (r k))
     /\ p = SliceBounds (List.length (fst (r k))) (CHUNK_SIZE env).
Proof.
  rewrite upload_turn_run. cbv zeta. unfold turn_events, nonempty.
  destruct (0 <? List.length (fst (r k)))%nat; cbn [andb].
  - destruct (Nat.leb_spec (List.length (fst (r k))) (CHUNK_SIZE env))
      as [Hfit | Hbig]; cbn [fst snd].
    + repeat split; try discriminate.
    + repeat split; try discriminate; injection H as <-; auto.
  - cbn [fst snd]. repeat split; discriminate.
Qed.

Lemma upload_turns (env : Env) (conn : CLAMDConn) (r : io_Reader)
  (fuel : nat) :
  forall (k : nat) (tr : list event),
  exists n,
    n <= fuel
    /\ snd (upload env fuel conn r k tr)
       = (tr ++ flat_map (turn_events env r) (seq k n))%list
    /\ fst (upload env fuel conn r k tr) <> Blocks
    /\ forall p, fst (upload env fuel conn r k tr) = Panics p ->
       exists i, i < k + n
                 /\ CHUNK_SIZE env < List.length (fst (r i))
                 /\ p = SliceBounds (List.length (fst (r i))) (CHUNK_SIZE env).
Proof.
  induction fuel as [| fuel IH]; intros k tr.
  - exists 0. cbn. rewrite app_nil_r.
    repeat split; [lia | discriminate | discriminate].
  - cbn [upload]. unfold bind.
    destruct (upload_turn_events env conn r k tr) as (Htr & Hb & Hp).
    destruct (upload_turn env conn r k tr) as [[[e |] | p | |] tr1];
      cbn [fst snd] in *; subst tr1.
    + exists 1. cbn [seq flat_map fst snd]. rewrite app_nil_r.
      repeat split; [lia | discriminate | discriminate].
    + destruct (IH (S k) (tr ++ turn_events env r k)%list)
        as (n & Hn & Htr & Hb' & Hp').
      exists (S n). cbn [seq flat_map]. rewrite Htr, <- app_assoc.
      repeat split; [lia | exact Hb' |].
      intros p Hpp. destruct (Hp' p Hpp) as (i & Hi & Hrest).
      exists i. split; [lia | exact Hrest].
    + exists 1. cbn [seq flat_map fst snd]. rewrite app_nil_r.
      repeat split; [lia | discriminate |].
      intros p' [= <-]. exists k. split; [lia | now apply Hp].
    + now destruct Hb.
    + exists 1. cbn [seq flat_map fst snd]. rewrite app_nil_r.
      repeat split; [lia | discriminate | discriminate].
Qed.

Ltac list_shape :=
  cbn [app]; rewrite <- ?app_assoc; cbn [app]; rewrite ?app_nil_r;
  reflexivity.

(** X13.  The events of every call are an initial part of one exchange in
    its fixed order: the parse of the address, the dial, for [ScanStream]
    the launch of the watcher, the command of the operation, for
    [ScanStream] the turns of the upload loop from the first [Read] on and
    then the terminator, [readResponse], the launch of the closer.  In a
    turn the chunk follows its [Read] and carries the bytes of that
    [Read] unchanged; no chunk is sent before the command, and the
    response is not read before the terminator is sent. *)
Theorem calls_follow_the_exchange
  (env : Env) (c : Clamd) (op : operation) (tr : list event) :
  exists evs dial n rest,
    trace_of env c op tr = (tr ++ evs)%list
    /\ is_dial dial = true
    /\ (evs ++ rest)%list = full_exchange env c op dial n.
Proof.
  assert (Hsimple : forall command,
            exists evs dial rest,
              snd (simpleCommand env c command tr) = (tr ++ evs)%list
              /\ is_dial dial = true
              /\ (evs ++ rest)%list
                 = [EvParse (address c); dial; EvSendCommand command;
                    EvReadResponse; EvGo Closer]).
  { intros command.
    destruct (newConnection_shape env c tr)
      as [[e Hc] | (d & res & Hd & Hc & [[conn ->] | [e ->]])].
    - rewrite (simpleCommand_not_connected _ _ _ _ _ _ _ Hc).
      exists [EvParse (address c)], (EvDialUnix ""). eexists.
      split; [reflexivity |]. split; reflexivity.
    - rewrite (simpleCommand_connected _ _ _ _ _ _ Hc).
      destruct (sendCommand env _ command); cbn [snd];
        rewrite <- app_assoc; cbn [app]; eexists; exists d; eexists;
        (split; [reflexivity |]); (split; [exact Hd |]).
      + cbn [app]. reflexivity.
      + now rewrite app_nil_r.
    - rewrite (simpleCommand_not_connected _ _ _ _ _ _ _ Hc).
      eexists. exists d. eexists. split; [reflexivity |].
      split; [exact Hd |]. reflexivity. }
  assert (Hop : forall op' command,
            streams op' = false -> command_of op' = command ->
            exists evs dial n rest,
              snd (simpleCommand env c command tr) = (tr ++ evs)%list
              /\ is_dial dial = true
              /\ (evs ++ rest)%list = full_exchange env c op' dial n).
  { intros op' command Hst Hcmd.
    destruct (Hsimple command) as (evs & dial & rest & Htr & Hd & Hfull).
    exists evs, dial, 0, rest. split; [exact Htr |]. split; [exact Hd |].
    rewrite Hfull. unfold full_exchange, uploads. rewrite Hst, Hcmd.
    destruct op'; try discriminate; reflexivity. }
  destruct op as [| | | | | v path | fuel r]; cbn [trace_of];
    rewrite ?Ping_trace, ?Version_trace, ?Stats_trace, ?Reload_trace,
      ?Shutdown_trace, ?scan_operation_trace;
    try (apply Hop; reflexivity).
  unfold full_exchange, uploads. cbn [streams command_of].
  destruct (newConnection_shape env c tr)
    as [[e Hc] | (d & res & Hd & Hc & [[conn ->] | [e ->]])].
  - rewrite (ScanStream_not_connected _ _ _ _ _ _ _ _ Hc).
    exists [EvParse (address c)], (EvDialUnix ""), 0. eexists.
    split; [reflexivity |]. split; reflexivity.
  - rewrite (ScanStream_connected _ _ _ _ _ _ _ Hc).
    destruct (sendCommand env _ "INSTREAM").
    + cbn [snd]. rewrite <- app_assoc. cbn [app].
      eexists. exists d, 0. eexists. split; [reflexivity |].
      split; [exact Hd |]. cbn [app]. reflexivity.
    + destruct (upload_turns env conn r fuel 0
                  ((tr ++ [EvParse (address c); d]) ++
                   [EvGo AbortWatcher; EvSendCommand "INSTREAM"])%list)
        as (n & _ & Hu & _).
      set (turns := flat_map (turn_events env r) (seq 0 n)) in *.
      set (sent := [EvParse (address c); d; EvGo AbortWatcher;
                    EvSendCommand "INSTREAM"]).
      destruct (upload env fuel conn r 0 _) as [[[] | p | |] tr4];
        cbn [snd] in Hu; subst tr4; [destruct (sendEOF env _) | | |];
        cbn [snd].
      * exists (sent ++ turns ++ [EvSendEOF])%list, d, n,
          [EvReadResponse; EvGo Closer].
        (split; [| split; [exact Hd |]]); unfold sent; list_shape.
      * exists (sent ++ turns ++ [EvSendEOF; EvReadResponse; EvGo Closer])%list,
          d, n, [].
        (split; [| split; [exact Hd |]]); unfold sent; list_shape.
      * exists (sent ++ turns)%list, d, n,
          [EvSendEOF; EvReadResponse; EvGo Closer].
        (split; [| split; [exact Hd |]]); unfold sent; list_shape.
      * exists (sent ++ turns)%list, d, n,
          [EvSendEOF; EvReadResponse; EvGo Closer].
        (split; [| split; [exact Hd |]]); unfold sent; list_shape.
      * exists (sent ++ turns)%list, d, n,
          [EvSendEOF; EvReadResponse; EvGo Closer].
        (split; [| split; [exact Hd |]]); unfold sent; list_shape.
  - rewrite (ScanStream_not_connected _ _ _ _ _ _ _ _ Hc).
    eexists. exists d, 0. eexists. split; [reflexivity |].
    split; [exact Hd |]. reflexivity.
Qed.


(** * The tasks of a call: how often and whether the connection is closed *)

Section Closes.

Import Tasks.

Variable env : Env.
Variable refusal : list event -> option error.
Variable c : Clamd.
Variable the_call : call.

Local Abbreviation step := (Tasks.step env refusal c the_call).
Local Abbreviation exec := (Tasks.exec env refusal c the_call).
Local Abbreviation invariant := (Tasks.invariant the_call).

(** Only the two closing steps add to the calls of [conn.Close()]. *)
Lemma step_closes (l : label) (st st' : state) :
  step l st = Some st' ->
  closes st' = closes st
  \/ (watcher st = WClosing /\ closes st' = (closes st ++ [AbortWatcher])%list)
  \/ (closer st = CWaiting /\ closes st' = (closes st ++ [Closer])%list).
Proof.
  unfold Tasks.step. intros H.
  destruct (main st) eqn:Hm; try discriminate; destruct l;
    try (left; now apply (main_step_frame env refusal c the_call) in H);
    unfold abort_send, abort_close, watcher_receive, watcher_close,
      decoder_deliver, decoder_complete, closer_close in H;
    repeat match type of H with
           | context [match ?x with _ => _ end] => destruct x eqn:?
           end; try discriminate;
    inversion H; subst; simpl; auto.
Qed.

Lemma closes_NoDup (schedule : list label) :
  forall st st', invariant st -> NoDup (closes st) ->
  exec schedule st = Some st' -> NoDup (closes st').
Proof.
  induction schedule as [| l schedule IH]; intros st st' Hinv Hnd H;
    simpl in H.
  - now injection H as <-.
  - destruct (step l st) as [st1 |] eqn:Hs; [| discriminate].
    apply (IH st1 st'); [now apply (invariant_step env refusal c the_call l st)
                        | | exact H].
    destruct (step_closes _ _ _ Hs) as [-> | [[Hw ->] | [Hc ->]]];
      [exact Hnd | |];
      apply NoDup_app; repeat split; auto using NoDup_cons, NoDup_nil;
      try (constructor; [simpl; tauto | constructor]);
      intros g Hin [<- | []].
    + apply (inv_watcher_close _ _ Hinv) in Hin. congruence.
    + apply (inv_closer_close _ _ Hinv) in Hin. congruence.
Qed.

(** X15.  In every interleaving each goroutine closes the connection at
    most once: [conn.Close()] is called at most twice in a call of
    [ScanStream], once by the watcher and once by the closer, and at most
    once in a call of [simpleCommand]. *)
Theorem closes_once_per_goroutine (schedule : list label) (st : state) :
  exec schedule init = Some st ->
  NoDup (closes st)
  /\ List.length (closes st) <= 2
  /\ (forall command, the_call = Simple command ->
      List.length (closes st) <= 1).
Proof.
  intros Hexec.
  pose proof (reachable_invariant env refusal c the_call _ _ Hexec) as Hinv.
  assert (Hnd : NoDup (closes st)).
  { apply (closes_NoDup schedule init st);
      [apply invariant_init | constructor | exact Hexec]. }
  split; [exact Hnd |]. split.
  - apply (NoDup_incl_length (l' := [Closer; AbortWatcher]) Hnd).
    intros [|] _; simpl; auto.
  - intros command Hcall.
    apply (NoDup_incl_length (l' := [Closer]) Hnd).
    intros [|] Hin; simpl; auto.
    apply (inv_watcher_close _ _ Hinv) in Hin.
    destruct (inv_watcher_launch _ _ Hinv) as [r Hr]; congruence.
Qed.

(** Once the caller has returned, it stays there, and a decoder that was
    not started is never started. *)
Lemma returned_is_final (schedule : list label) :
  forall st st' ch err,
    exec schedule st = Some st' ->
    main st = MReturned ch err ->
    main st' = MReturned ch err
    /\ (decoder st = DAbsent -> decoder st' = DAbsent).
Proof.
  induction schedule as [| l schedule IH]; intros st st' ch err H Hm;
    simpl in H.
  - injection H as <-. auto.
  - destruct (step l st) as [st1 |] eqn:Hs; [| discriminate].
    assert (H1 : main st1 = MReturned ch err
                 /\ (decoder st = DAbsent -> decoder st1 = DAbsent)).
    { unfold Tasks.step in Hs. rewrite Hm in Hs.
      destruct l;
        unfold main_step, abort_send, abort_close, watcher_receive,
          watcher_close, decoder_deliver, decoder_complete, closer_close in Hs;
        rewrite ?Hm in Hs;
        repeat match type of Hs with
               | context [match ?x with _ => _ end] => destruct x eqn:?
               end; try discriminate;
        inversion Hs; subst; simpl; split; auto; congruence. }
    destruct H1 as [Hm1 Hd1].
    destruct (IH _ _ _ _ H Hm1) as [Hm' Hd'].
    split; [exact Hm' |]. auto.
Qed.

(** X16.  A call that returns before the response is read, as it does
    when the send of the command or of the terminator fails, leaves the
    connection open: in every interleaving that follows, the closer does
    not exist, so that nothing closes the connection of a call of
    [simpleCommand], and only a close of the abort channel gets the
    connection of a call of [ScanStream] closed. *)
Theorem unread_call_leaves_connection_open
  (schedule more : list label) (st st' : state)
  (ch : chan) (err : option error) :
  exec schedule init = Some st ->
  main st = MReturned ch err ->
  decoder st = DAbsent ->
  exec more st = Some st' ->
  main st' = MReturned ch err
  /\ closer st' = CAbsent
  /\ ~ In Closer (closes st')
  /\ (abort_closed st' = false -> closes st' = [])
  /\ (forall command, the_call = Simple command -> closes st' = []).
Proof.
  intros Hexec Hm Hd Hmore.
  destruct (returned_is_final more st st' ch err Hmore Hm) as [Hm' Hd'].
  specialize (Hd' Hd).
  assert (Hexec' : exec (schedule ++ more)%list init = Some st').
  { now rewrite (exec_app env refusal c the_call), Hexec. }
  pose proof (reachable_invariant env refusal c the_call _ _ Hexec') as Hinv.
  destruct (inv_absent _ _ Hinv Hd') as (Hca & _).
  assert (Hno : ~ In Closer (closes st')).
  { intros Hin. apply (inv_closer_close _ _ Hinv) in Hin. congruence. }
  split; [exact Hm' |]. split; [exact Hca |]. split; [exact Hno |]. split.
  - intros Hab.
    assert (Hnw : ~ In AbortWatcher (closes st')).
    { intros Hin. apply (inv_watcher_close _ _ Hinv) in Hin.
      assert (Hab' : abort_closed st' = true).
      { apply (inv_watcher_cancel _ _ Hinv). now right. }
      congruence. }
    destruct (closes st') as [| [|] l]; [reflexivity | |]; exfalso;
      [apply Hno | apply Hnw]; now left.
  - intros command Hcall.
    assert (Hnw : ~ In AbortWatcher (closes st')).
    { intros Hin. apply (inv_watcher_close _ _ Hinv) in Hin.
      destruct (inv_watcher_launch _ _ Hinv) as [r Hr]; congruence. }
    destruct (closes st') as [| [|] l]; [reflexivity | |]; exfalso;
      [apply Hno | apply Hnw]; now left.
Qed.

End Closes.

Section WatcherOutlives.

Import Tasks.

Variable env : Env.
Variable refusal : list event -> option error.
Variable c : Clamd.
Variable r : io_Reader.

Local Abbreviation exec := (Tasks.exec env refusal c (Stream r)).

(** X17.  The watcher of [ScanStream] outlives the call: as long as the
    abort channel is not closed it stays in its loop, also after the
    response is complete and the closer has closed the connection; when
    the abort channel is closed then, the watcher closes the connection a
    second time. *)
Theorem watcher_outlives_the_call (schedule : list label) (st : state) :
  exec schedule init = Some st ->
  abort_closed st = false ->
  (watcher st <> WAbsent -> watcher st = WReceiving)
  /\ (watcher st = WReceiving -> In Closer (closes st) ->
      exists st',
        exec (LCancel :: repeat LWatch (List.length (abort_queue st))
                ++ [LWatch; LWatcherClose])%list st = Some st'
        /\ closes st' = [Closer; AbortWatcher]).
Proof.
  intros Hexec Hab.
  pose proof (reachable_invariant env refusal c (Stream r) _ _ Hexec) as Hinv.
  split.
  - intros Hw. destruct (watcher st) eqn:Hws; try congruence;
      assert (abort_closed st = true)
        by (apply (inv_watcher_cancel _ _ Hinv); rewrite Hws; auto);
      congruence.
  - intros Hw Hin.
    assert (Hcl : closes st = [Closer]).
    { assert (Hnd : NoDup (closes st)).
      { apply (closes_NoDup env refusal c (Stream r) schedule init st);
          [apply invariant_init | constructor | exact Hexec]. }
      assert (Hnw : ~ In AbortWatcher (closes st)).
      { intros H. apply (inv_watcher_close _ _ Hinv) in H. congruence. }
      destruct (closes st) as [| [|] [| g l]]; try easy.
      - exfalso. destruct g.
        + inversion Hnd as [| ? ? Hno _]. apply Hno. now left.
        + apply Hnw. right. now left.
      - exfalso. apply Hnw. now left.
      - exfalso. apply Hnw. now left. }
    assert (Hp : forall p, main st <> MPanicked p).
    { apply (inv_closer_close _ _ Hinv) in Hin.
      destruct (inv_closer_launch _ _ Hinv) as (ch & err & Hm); congruence. }
    cbn [Tasks.exec app]. rewrite (step_alive env refusal c r _ _ Hp).
    unfold abort_close. rewrite Hab.
    match goal with
    | |- context [Tasks.exec _ _ _ _ _ ?s] =>
        destruct (watcher_closes_after_cancel env refusal c r s)
          as (st' & He & Hc' & _)
    end; simpl; auto.
    exists st'. simpl in He, Hc'. rewrite He, Hc', Hcl. auto.
Qed.

End WatcherOutlives.

(** * The further properties on examples *)

Lemma Stats_accepts_iff_witness :
  Stats_range empty_Stats (map plain ["STATE: VALID"; "POOLS"; "BOGUS"])
  = Panics (SliceBounds 6 5)
  /\ Stats_range empty_Stats (map plain ["END"; "BOGUS"; "POOLS"])
     = Returns (None, Some (unknown_response (plain "BOGUS")))
  /\ exists stats',
       Stats_range empty_Stats stats_reply = Returns (Some stats', None).
Proof.
  split; [| split].
  - destruct (Stats_accepts_iff empty_Stats
                (map plain ["STATE: VALID"; "POOLS"; "BOGUS"])) as [_ H].
    exact (H [plain "STATE: VALID"] (plain "POOLS") [plain "BOGUS"]
             eq_refl eq_refl eq_refl).
  - destruct (Stats_accepts_iff empty_Stats
                (map plain ["END"; "BOGUS"; "POOLS"])) as [_ H].
    exact (H [plain "END"] (plain "BOGUS") [plain "POOLS"]
             eq_refl eq_refl eq_refl).
  - destruct (Stats_accepts_iff empty_Stats stats_reply) as [[_ H] _].
    apply H. reflexivity.
Defined.

Lemma Stats_skips_END_witness :
  Stats_range empty_Stats (map plain ["STATE: VALID"; "END"; "QUEUE: 0"])
  = Stats_range empty_Stats (map plain ["STATE: VALID"; "QUEUE: 0"]).
Proof.
  apply (Stats_skips_END empty_Stats [plain "STATE: VALID"]
           [plain "QUEUE: 0"] (plain "END")).
  reflexivity.
Defined.

Lemma Stats_keeps_last_records_witness :
  Pools (mkStats "2" "STATE: EXIT" "" "" "") = "2"
  /\ State (mkStats "2" "STATE: EXIT" "" "" "") = "STATE: EXIT"
  /\ Threads (mkStats "2" "STATE: EXIT" "" "" "") = "".
Proof.
  destruct (Stats_keeps_last_records empty_Stats
              (mkStats "2" "STATE: EXIT" "" "" "")
              (map plain ["STATE: VALID"; "POOLS:  2 "; "STATE: EXIT"]))
    as (H1 & H2 & H3 & _).
  - reflexivity.
  - split; [exact H1 | split; [exact H2 | exact H3]].
Defined.


Lemma Shutdown_returns_witness :
  exists err,
    fst (Shutdown (env_reply []) tcp_client []) = Returns err /\ err = None.
Proof.
  destruct (Shutdown_returns (env_reply []) tcp_client [])
    as (err & Hrun & _ & Hnil).
  exists err. split; [exact Hrun |].
  apply Hnil. exists (Some []).
  exists (TcpConn "127.0.0.1:3310"),
    [EvParse "tcp://127.0.0.1:3310"; EvDialTcp "127.0.0.1:3310"].
  repeat split.
Defined.


Lemma failed_connection_reported_or_blocked_witness :
  reported (env_reply []) bad_client OpStats []
  = Returns (Some (url_example.parse_error "127.0.0.1:3310"
                     "first path segment in URL cannot contain colon"))
  /\ reported (env_reply []) bad_client (OpScan SCAN "/srv") [] = Blocks
  /\ trace_of (env_reply []) bad_client (OpScan SCAN "/srv") []
     = [EvParse "127.0.0.1:3310"].
Proof.
  split; [| split].
  - apply (failed_connection_reported_or_blocked (env_reply []) bad_client
             OpStats [] [EvParse "127.0.0.1:3310"] None).
    reflexivity.
  - apply (failed_connection_reported_or_blocked (env_reply []) bad_client
             (OpScan SCAN "/srv") [] [EvParse "127.0.0.1:3310"] None
             (url_example.parse_error "127.0.0.1:3310"
                "first path segment in URL cannot contain colon")).
    reflexivity.
  - apply (failed_connection_reported_or_blocked (env_reply []) bad_client
             (OpScan SCAN "/srv") [] [EvParse "127.0.0.1:3310"] None
             (url_example.parse_error "127.0.0.1:3310"
                "first path segment in URL cannot contain colon")).
    reflexivity.
Defined.

Lemma failed_send_reported_or_blocked_witness :
  reported env_broken_pipe tcp_client OpReload [] = Returns (Some err_pipe)
  /\ reported env_broken_pipe tcp_client OpVersion [] = Blocks
  /\ trace_of env_broken_pipe tcp_client
       (OpScanStream 3 (reader_of [[x01]])) []
     = [EvParse "tcp://127.0.0.1:3310"; EvDialTcp "127.0.0.1:3310";
        EvGo AbortWatcher; EvSendCommand "INSTREAM"].
Proof.
  split; [| split].
  - apply (failed_send_reported_or_blocked env_broken_pipe tcp_client
             OpReload []
             [EvParse "tcp://127.0.0.1:3310"; EvDialTcp "127.0.0.1:3310"]
             (TcpConn "127.0.0.1:3310") err_pipe); reflexivity.
  - apply (failed_send_reported_or_blocked env_broken_pipe tcp_client
             OpVersion []
             [EvParse "tcp://127.0.0.1:3310"; EvDialTcp "127.0.0.1:3310"]
             (TcpConn "127.0.0.1:3310") err_pipe); reflexivity.
  - apply (failed_send_reported_or_blocked env_broken_pipe tcp_client
             (OpScanStream 3 (reader_of [[x01]])) []
             [EvParse "tcp://127.0.0.1:3310"; EvDialTcp "127.0.0.1:3310"]
             (TcpConn "127.0.0.1:3310") err_pipe); reflexivity.
Defined.


Lemma ScanStream_uploads_what_it_reads_witness :
  frames (snd (ScanStream (env_reply [plain "stream: OK"]) 2 tcp_client
                 reader_with_EOF []))
  = [Some [x01; x02]; None].
Proof.
  destruct (ScanStream_uploads_what_it_reads
              (env_reply [plain "stream: OK"]) 2 tcp_client reader_with_EOF
              [] [EvParse "tcp://127.0.0.1:3310"; EvDialTcp "127.0.0.1:3310"]
              (TcpConn "127.0.0.1:3310") 1 "EOF") as (H & _).
  - reflexivity.
  - reflexivity.
  - reflexivity.
  - intros [| k]; simpl; lia.
  - reflexivity.
  - intros [| i] Hi; [left; discriminate | lia].
  - lia.
  - exact H.
Defined.

Lemma upload_runs_until_an_error_witness :
  fst (ScanStream (env_reply [plain "stream: OK"]) 50 tcp_client
         reader_failing_with_data []) = OutOfFuel.
Proof.
  destruct (upload_runs_until_an_error
              (env_reply [plain "stream: OK"]) 50 tcp_client
              reader_failing_with_data []
              [EvParse "tcp://127.0.0.1:3310"; EvDialTcp "127.0.0.1:3310"]
              (TcpConn "127.0.0.1:3310")) as [H _].
  - reflexivity.
  - reflexivity.
  - reflexivity.
  - intros k. simpl. lia.
  - intros k Hk. discriminate Hk.
  - exact H.
Defined.

Lemma ScanStream_reported_errors_witness :
  exists evs,
    snd (ScanStream env_broken_pipe 3 tcp_client (reader_of [[x01]]) [])
    = evs
    /\ count is_response evs = 0
    /\ count (is_launch Closer) evs = 0.
Proof.
  destruct (ScanStream_reported_errors env_broken_pipe 3 tcp_client
              (reader_of [[x01]]) []) as [H _].
  destruct (H None err_pipe eq_refl) as (_ & _ & evs & Htr & Hr & Hg).
  exists evs. split; [exact Htr | split; [exact Hr | exact Hg]].
Defined.

Lemma calls_follow_the_exchange_witness :
  exists evs dial n rest,
    trace_of (env_reply [plain "stream: OK"]) tcp_client
      (OpScanStream 3 (reader_of [[x01; x02]; [x03]])) [] = evs
    /\ is_dial dial = true
    /\ (evs ++ rest)%list
       = full_exchange (env_reply [plain "stream: OK"]) tcp_client
           (OpScanStream 3 (reader_of [[x01; x02]; [x03]])) dial n.
Proof.
  destruct (calls_follow_the_exchange (env_reply [plain "stream: OK"])
              tcp_client (OpScanStream 3 (reader_of [[x01; x02]; [x03]])) [])
    as (evs & dial & n & rest & Htr & Hd & Hfull).
  exists evs, dial, n, rest.
  split; [exact Htr | split; [exact Hd | exact Hfull]].
Defined.


Lemma closes_once_per_goroutine_witness :
  NoDup (Tasks.closes ping_state)
  /\ List.length (Tasks.closes ping_state) <= 1.
Proof.
  assert (Hexec : Tasks.exec (env_reply [plain "PONG"]) net_refusal tcp_client
                    (Tasks.Simple "PING") ping_schedule Tasks.init
                  = Some ping_state) by reflexivity.
  destruct (closes_once_per_goroutine _ _ _ _ _ _ Hexec) as (Hnd & _ & H1).
  split; [exact Hnd | exact (H1 "PING" eq_refl)].
Defined.

Lemma unread_call_leaves_connection_open_witness :
  Tasks.main unsent_state = Tasks.MReturned None (Some err_pipe)
  /\ forall st',
       Tasks.exec env_broken_pipe net_refusal tcp_client
         (Tasks.Simple "PING") [Tasks.LCancel; Tasks.LSend true] unsent_state
       = Some st' ->
       Tasks.closes st' = [].
Proof.
  assert (Hexec : Tasks.exec env_broken_pipe net_refusal tcp_client
                    (Tasks.Simple "PING") unsent_schedule Tasks.init
                  = Some unsent_state) by reflexivity.
  split; [reflexivity |].
  intros st' Hmore.
  destruct (unread_call_leaves_connection_open _ _ _ _ _ _ _ _ _ _
              Hexec eq_refl eq_refl Hmore) as (_ & _ & _ & _ & H).
  exact (H "PING" eq_refl).
Defined.

Lemma watcher_outlives_the_call_witness :
  Tasks.closes completed_state = [Closer]
  /\ exists st',
       Tasks.exec (env_reply [plain "stream: OK"]) net_refusal tcp_client
         (Tasks.Stream (reader_of [[x01; x02]; [x03]]))
         [Tasks.LCancel; Tasks.LWatch; Tasks.LWatcherClose] completed_state
       = Some st'
       /\ Tasks.closes st' = [Closer; AbortWatcher].
Proof.
  assert (Hexec : Tasks.exec (env_reply [plain "stream: OK"]) net_refusal
                    tcp_client
                    (Tasks.Stream (reader_of [[x01; x02]; [x03]]))
                    completed_schedule Tasks.init
                  = Some completed_state) by reflexivity.
  split; [reflexivity |].
  destruct (watcher_outlives_the_call _ _ _ _ _ _ Hexec eq_refl) as [_ H].
  apply H; [reflexivity | now left].
Defined.
